(** * AsyncBroadcaster: a shallow embedding of [src/index.ts]

    The broadcaster object is a record of its private fields; its methods are
    functions on that record.  The asynchronous parts (the ingestion loop
    [_pushAll], the async generator [_values], abort signals and the shared
    promise [_nextValue]) are modelled as a transition system whose steps are
    the code segments that run between two suspension points. *)

From stdpp Require Import gmap list fin_maps.
From Stdlib Require Import ZArith Lia.

Local Open Scope Z_scope.

(** ** JavaScript numbers that occur in the class

    Cursors are integers.  [Math.min] of no arguments is [Infinity], which is
    the only non-integer number the class ever computes. *)

Inductive num : Type :=
| Fin (z : Z)
| Infinity.

Definition num_min (a b : num) : num :=
  match a, b with
  | Fin x, Fin y => Fin (Z.min x y)
  | Fin x, Infinity => Fin x
  | Infinity, b => b
  end.

(** [Math.min(...values)]. *)
Definition Math_min (values : list Z) : num :=
  foldr (λ n acc, num_min (Fin n) acc) Infinity values.

(** [array.length] as a JavaScript number. *)
Definition len {A : Type} (l : list A) : Z := Z.of_nat (length l).

(** [array[index]]: [None] stands for [undefined], the result of a read
    outside the array. *)
Definition array_get {A : Type} (l : list A) (index : Z) : option A :=
  if index <? 0 then None else l !! Z.to_nat index.

(** [minIndex > 0]. *)
Definition num_pos (n : num) : bool :=
  match n with
  | Fin z => 0 <? z
  | Infinity => true
  end.

(** [array.splice(0, deleteCount)]: the count is clamped to the range from 0
    to the length of the array. *)
Definition splice0 {A : Type} (l : list A) (deleteCount : num) : list A :=
  let actualDeleteCount :=
    match deleteCount with
    | Fin z => Z.min (Z.max z 0) (len l)
    | Infinity => len l
    end in
  drop (Z.to_nat actualDeleteCount) l.

Section broadcaster.
Context {T : Type}.

(** ** The object

    Promises are heap objects; a field that holds a promise (or the resolve
    function of a promise) holds its identity. *)

Record AsyncBroadcaster : Type := mkBroadcaster {
  _buffer : list T;
  _nextGeneratorID : nat;
  _indices : gmap nat Z;
  _nextValue : option nat;
  _resolveNextValue : option nat;
}.

(** The state after the field initialisers have run. *)
Definition new_broadcaster : AsyncBroadcaster :=
  {| _buffer := [];
     _nextGeneratorID := 0%nat;
     _indices := ∅;
     _nextValue := None;
     _resolveNextValue := None |}.

Definition set_buffer (buf : list T) (b : AsyncBroadcaster) : AsyncBroadcaster :=
  {| _buffer := buf;
     _nextGeneratorID := _nextGeneratorID b;
     _indices := _indices b;
     _nextValue := _nextValue b;
     _resolveNextValue := _resolveNextValue b |}.

Definition set_indices (ix : gmap nat Z) (b : AsyncBroadcaster) : AsyncBroadcaster :=
  {| _buffer := _buffer b;
     _nextGeneratorID := _nextGeneratorID b;
     _indices := ix;
     _nextValue := _nextValue b;
     _resolveNextValue := _resolveNextValue b |}.

(** Lines 104-106: the loop over [this._indices.entries()] that stores
    [n - minIndex] under every key.  A cursor is an integer, so the loop body
    is only defined for an integer [minIndex]; [Math.min] is [Infinity] only
    when the registry is empty ([Math_min_Infinity] below) and the loop then
    visits nothing. *)
Definition rebase (minIndex : num) (ix : gmap nat Z) : gmap nat Z :=
  match minIndex with
  | Fin m => foldr (λ e acc, <[e.1 := e.2 - m]> acc) ix (map_to_list ix)
  | Infinity => ix
  end.

(** [_trim] (lines 100-108). *)
Definition _trim (b : AsyncBroadcaster) : AsyncBroadcaster :=
  let minIndex := Math_min (map_to_list (_indices b)).*2 in
  if num_pos minIndex
  then set_indices (rebase minIndex (_indices b))
         (set_buffer (splice0 (_buffer b) minIndex) b)
  else b.

(** [_cleanup] (lines 92-95). *)
Definition _cleanup (id : nat) (b : AsyncBroadcaster) : AsyncBroadcaster :=
  _trim (set_indices (delete id (_indices b)) b).

(** The body of the loop of [_pushAll] (lines 37-40), apart from the call of
    the resolve function, which acts on the promise heap. *)
Definition push_value (v : T) (b : AsyncBroadcaster) : AsyncBroadcaster :=
  {| _buffer := _buffer b ++ [v];
     _nextGeneratorID := _nextGeneratorID b;
     _indices := _indices b;
     _nextValue := None;
     _resolveNextValue := None |}.

(** Lines 51 and 55: a fresh identity and a cursor at the end of the buffer. *)
Definition register (b : AsyncBroadcaster) : AsyncBroadcaster :=
  {| _buffer := _buffer b;
     _nextGeneratorID := S (_nextGeneratorID b);
     _indices := <[_nextGeneratorID b := len (_buffer b)]> (_indices b);
     _nextValue := _nextValue b;
     _resolveNextValue := _resolveNextValue b |}.

(** Lines 80-81: [this._indices.set(id, ++index); this._trim()]. *)
Definition advance (id : nat) (index : Z) (b : AsyncBroadcaster) : AsyncBroadcaster :=
  _trim (set_indices (<[id := index + 1]> (_indices b)) b).

(** Lines 63-65 when [_nextValue] is undefined: both fields refer to the new
    promise [p]. *)
Definition set_nextValue (p : nat) (b : AsyncBroadcaster) : AsyncBroadcaster :=
  {| _buffer := _buffer b;
     _nextGeneratorID := _nextGeneratorID b;
     _indices := _indices b;
     _nextValue := Some p;
     _resolveNextValue := Some p |}.

(** ** Generator objects

    An async generator made by [_values] is suspended at one of three places:
    before its body has started, at the [await] of line 67, or at the [yield]
    of line 82.  [g_joined] and [g_log] are history variables, read by no
    step: the number of values the upstream source had produced when the body
    started, and the values the generator has yielded so far. *)

Inductive phase : Type :=
| SuspendedStart
| Awaiting (id : nat) (p : nat)
| SuspendedYield (id : nat)
| Completed.

Record Generator : Type := mkGenerator {
  g_signal : option nat;
  g_phase : phase;
  g_joined : option nat;
  g_log : list (option T);
}.

(** The identity under which a generator is registered, once it has one. *)
Definition phase_id (ph : phase) : option nat :=
  match ph with
  | Awaiting id _ | SuspendedYield id => Some id
  | SuspendedStart | Completed => None
  end.

(** ** The whole system

    [w_promises] is the heap of promises made at line 63 (a promise is its
    position, the flag says whether it is resolved), [w_aborted] the set of
    abort signals that have fired, [w_generators] the heap of generator
    objects, [w_pushing] whether the loop of [_pushAll] is running, and
    [w_produced] the history of the values the upstream source has yielded. *)

Record World : Type := mkWorld {
  w_this : AsyncBroadcaster;
  w_promises : list bool;
  w_aborted : gset nat;
  w_generators : list Generator;
  w_pushing : bool;
  w_produced : list T;
}.

(** [new AsyncBroadcaster(iterable)]; [has_iterable] is false when the
    argument is omitted and [_pushAll] is never called. *)
Definition new_world (has_iterable : bool) : World :=
  {| w_this := new_broadcaster;
     w_promises := [];
     w_aborted := ∅;
     w_generators := [];
     w_pushing := has_iterable;
     w_produced := [] |}.

Definition set_this (b : AsyncBroadcaster) (w : World) : World :=
  {| w_this := b;
     w_promises := w_promises w;
     w_aborted := w_aborted w;
     w_generators := w_generators w;
     w_pushing := w_pushing w;
     w_produced := w_produced w |}.

Definition set_generator (g : nat) (G : Generator) (w : World) : World :=
  {| w_this := w_this w;
     w_promises := w_promises w;
     w_aborted := w_aborted w;
     w_generators := <[g := G]> (w_generators w);
     w_pushing := w_pushing w;
     w_produced := w_produced w |}.

Definition set_phase (ph : phase) (G : Generator) : Generator :=
  {| g_signal := g_signal G;
     g_phase := ph;
     g_joined := g_joined G;
     g_log := g_log G |}.

(** [signal?.aborted]: [undefined] when there is no signal. *)
Definition signal_aborted (w : World) (G : Generator) : bool :=
  match g_signal G with
  | Some s => bool_decide (s ∈ w_aborted w)
  | None => false
  end.

Definition promise_resolved (w : World) (p : nat) : bool :=
  default false (w_promises w !! p).

(** Lines 79-82: read the value, advance, trim and yield. *)
Definition deliver (g : nat) (G : Generator) (id : nat) (index : Z)
    (w : World) : World :=
  let v := array_get (_buffer (w_this w)) index in
  set_generator g
    {| g_signal := g_signal G;
       g_phase := SuspendedYield id;
       g_joined := g_joined G;
       g_log := g_log G ++ [v] |}
    (set_this (advance id index (w_this w)) w).

(** Lines 63-67: make sure there is a pending promise and wait for it. *)
Definition wait (g : nat) (G : Generator) (id : nat) (w : World) : World :=
  match _nextValue (w_this w) with
  | Some p => set_generator g (set_phase (Awaiting id p) G) w
  | None =>
      let p := length (w_promises w) in
      set_generator g (set_phase (Awaiting id p) G)
        {| w_this := set_nextValue p (w_this w);
           w_promises := w_promises w ++ [false];
           w_aborted := w_aborted w;
           w_generators := w_generators w;
           w_pushing := w_pushing w;
           w_produced := w_produced w |}
  end.

(** The outer [finally] (lines 84-89). *)
Definition finish (g : nat) (G : Generator) (id : nat) (w : World) : World :=
  set_generator g (set_phase Completed G)
    (set_this (_cleanup id (w_this w)) w).

(** One turn of the [while] loop from its test (line 58) to the next
    suspension.  The read [this._indices.get(id)!] of an unregistered identity
    is outside the model: the turn is then undefined. *)
Definition loop_turn (g : nat) (G : Generator) (id : nat) (w : World)
    : option World :=
  if signal_aborted w G then Some (finish g G id w)
  else
    index ← _indices (w_this w) !! id;
    if index =? len (_buffer (w_this w))
    then Some (wait g G id w)
    else Some (deliver g G id index w).

(** The continuation of the [await] of line 67 (lines 68-82).  When the
    signal has fired, the inner [finally] cleans up and returns, and the outer
    [finally] cleans up again. *)
Definition after_await (g : nat) (G : Generator) (id : nat) (w : World)
    : option World :=
  if signal_aborted w G
  then Some (finish g G id (set_this (_cleanup id (w_this w)) w))
  else
    index ← _indices (w_this w) !! id;
    Some (deliver g G id index w).

(** ** Steps *)

Inductive event : Type :=
| Values (signal : option nat)
| Next (g : nat)
| Return (g : nat)
| Settle (g : nat)
| Produce (v : T)
| Finish
| SignalAbort (s : nat).

(** [Values signal]: a call of [iterable.values({signal})] or of
    [iterable[Symbol.asyncIterator]()] (lines 22-27); calling an async
    generator function runs none of its body. *)
Definition call_values (signal : option nat) (w : World) : World :=
  {| w_this := w_this w;
     w_promises := w_promises w;
     w_aborted := w_aborted w;
     w_generators := w_generators w ++
       [{| g_signal := signal; g_phase := SuspendedStart;
           g_joined := None; g_log := [] |}];
     w_pushing := w_pushing w;
     w_produced := w_produced w |}.

(** [Next g]: the consumer calls [g.next()].  A request made while the
    generator is running is queued by the runtime; such requests are not
    modelled. *)
Definition next (g : nat) (w : World) : option World :=
  G ← w_generators w !! g;
  match g_phase G with
  | SuspendedStart =>
      let id := _nextGeneratorID (w_this w) in
      loop_turn g
        {| g_signal := g_signal G; g_phase := g_phase G;
           g_joined := Some (length (w_produced w)); g_log := g_log G |}
        id (set_this (register (w_this w)) w)
  | SuspendedYield id => loop_turn g G id w
  | Awaiting _ _ => None
  | Completed => Some w
  end.

(** [Return g]: the consumer calls [g.return()] or [g.throw()], as a
    [for await] loop does on [break], [return] or a thrown error. *)
Definition return_ (g : nat) (w : World) : option World :=
  G ← w_generators w !! g;
  match g_phase G with
  | SuspendedStart => Some (set_generator g (set_phase Completed G) w)
  | SuspendedYield id => Some (finish g G id w)
  | Awaiting _ _ => None
  | Completed => Some w
  end.

(** [Settle g]: the promise made by [waitOrAbort] (lines 114-126) settles and
    the generator continues: it is fulfilled when the awaited promise is
    resolved and rejected when the signal fires. *)
Definition settle (g : nat) (w : World) : option World :=
  G ← w_generators w !! g;
  match g_phase G with
  | Awaiting id p =>
      if promise_resolved w p || signal_aborted w G
      then after_await g G id w
      else None
  | _ => None
  end.

(** [Produce v]: the upstream source yields [v] and the loop of [_pushAll]
    runs once (lines 36-41). *)
Definition produce (v : T) (w : World) : option World :=
  if w_pushing w
  then Some
    {| w_this := push_value v (w_this w);
       w_promises :=
         match _resolveNextValue (w_this w) with
         | Some p => <[p := true]> (w_promises w)
         | None => w_promises w
         end;
       w_aborted := w_aborted w;
       w_generators := w_generators w;
       w_pushing := w_pushing w;
       w_produced := w_produced w ++ [v] |}
  else None.

(** [Finish]: the upstream source is exhausted or throws; [_pushAll] ends. *)
Definition finish_upstream (w : World) : option World :=
  if w_pushing w
  then Some
    {| w_this := w_this w;
       w_promises := w_promises w;
       w_aborted := w_aborted w;
       w_generators := w_generators w;
       w_pushing := false;
       w_produced := w_produced w |}
  else None.

(** [SignalAbort s]: the abort signal [s] fires. *)
Definition abort (s : nat) (w : World) : World :=
  {| w_this := w_this w;
     w_promises := w_promises w;
     w_aborted := {[s]} ∪ w_aborted w;
     w_generators := w_generators w;
     w_pushing := w_pushing w;
     w_produced := w_produced w |}.

(** [None]: the event cannot happen in this state. *)
Definition step (e : event) (w : World) : option World :=
  match e with
  | Values signal => Some (call_values signal w)
  | Next g => next g w
  | Return g => return_ g w
  | Settle g => settle g w
  | Produce v => produce v w
  | Finish => finish_upstream w
  | SignalAbort s => Some (abort s w)
  end.

(** A run: the events happen one after the other. *)
Fixpoint run (es : list event) (w : World) : option World :=
  match es with
  | [] => Some w
  | e :: es' => w' ← step e w; run es' w'
  end.

Definition reachable (w : World) : Prop :=
  ∃ has_iterable es, run es (new_world has_iterable) = Some w.

(** The values an event appends to the buffer. *)
Definition appended (e : event) : list T :=
  match e with
  | Produce v => [v]
  | _ => []
  end.

(** The generator object an event resumes. *)
Definition resumed (e : event) : option nat :=
  match e with
  | Next g | Return g | Settle g => Some g
  | Values _ | Produce _ | Finish | SignalAbort _ => None
  end.

(** What a step may do to a generator object: the signal and the join point
    stay, and the log stays or, when the signal has not fired, grows by one
    yielded value. *)
Definition gen_step (w : World) (G G' : Generator) : Prop :=
  g_signal G' = g_signal G
  ∧ (g_log G' = g_log G
     ∨ (signal_aborted w G = false ∧ ∃ v, g_log G' = g_log G ++ [v])).

End broadcaster.

(** ** Invariants *)

Section invariants.
Context {T : Type}.

(** Every cursor points into the buffer or just past its end. *)
Definition cursors_ok (b : AsyncBroadcaster (T:=T)) : Prop :=
  ∀ i n, _indices b !! i = Some n → 0 ≤ n ≤ len (_buffer b).

(** [b'] is [b] with the first [k] values dropped and every cursor moved back
    by [k]: what a trim amounts to. *)
Definition shifted (k : Z) (b b' : AsyncBroadcaster (T:=T)) : Prop :=
  0 ≤ k ≤ len (_buffer b)
  ∧ (∀ i n, _indices b !! i = Some n → k ≤ n)
  ∧ _buffer b' = drop (Z.to_nat k) (_buffer b)
  ∧ _indices b' = (λ n, n - k) <$> _indices b
  ∧ _nextGeneratorID b' = _nextGeneratorID b
  ∧ _nextValue b' = _nextValue b
  ∧ _resolveNextValue b' = _resolveNextValue b.

(** A listener that joined after [N] productions and stands at cursor [c] has
    yielded [log]: the log followed by the unread part of the buffer is what
    the source has produced since the listener joined. *)
Definition trace_ok (produced buf : list T) (N : nat) (c : Z)
    (log : list (option T)) : Prop :=
  (N ≤ length produced)%nat
  ∧ Some <$> drop N produced = log ++ (Some <$> drop (Z.to_nat c) buf).

Definition gen_ok (b : AsyncBroadcaster) (promises : list bool)
    (produced : list T) (G : Generator) : Prop :=
  match g_phase G with
  | SuspendedStart => g_joined G = None ∧ g_log G = []
  | Awaiting id p =>
      ∃ N c, g_joined G = Some N ∧ _indices b !! id = Some c
             ∧ trace_ok produced (_buffer b) N c (g_log G)
             ∧ ((promises !! p = Some true ∧ c < len (_buffer b))
                ∨ _nextValue b = Some p)
  | SuspendedYield id =>
      ∃ N c, g_joined G = Some N ∧ _indices b !! id = Some c
             ∧ trace_ok produced (_buffer b) N c (g_log G)
  | Completed =>
      match g_joined G with
      | Some N =>
          (N ≤ length produced)%nat
          ∧ g_log G `prefix_of` (Some <$> drop N produced)
      | None => g_log G = []
      end
  end.

Definition this_ok (b : AsyncBroadcaster (T:=T)) (promises : list bool) : Prop :=
  cursors_ok b
  ∧ (∀ i, is_Some (_indices b !! i) → (i < _nextGeneratorID b)%nat)
  ∧ _resolveNextValue b = _nextValue b
  ∧ (∀ p, _nextValue b = Some p → promises !! p = Some false).

(** No two generator objects run under the same identity. *)
Definition unique_ids (gens : list (Generator (T:=T))) : Prop :=
  ∀ g1 g2 G1 G2 id,
    gens !! g1 = Some G1 → gens !! g2 = Some G2 →
    phase_id (g_phase G1) = Some id → phase_id (g_phase G2) = Some id →
    g1 = g2.

Definition inv (b : AsyncBroadcaster) (promises : list bool)
    (gens : list Generator) (produced : list T) : Prop :=
  this_ok b promises
  ∧ (∀ g G, gens !! g = Some G → gen_ok b promises produced G)
  ∧ unique_ids gens.

Definition Inv (w : World) : Prop :=
  inv (w_this w) (w_promises w) (w_generators w) (w_produced w).

(** From [b] to [b'], [extra] was appended to the buffer, then its first [k]
    values were trimmed, and every cursor registered before and after stayed
    or advanced by one, apart from the rebase by [k]. *)
Definition moved (k : Z) (extra : list T) (b b' : AsyncBroadcaster (T:=T)) : Prop :=
  0 ≤ k ≤ len (_buffer b ++ extra)
  ∧ _buffer b' = drop (Z.to_nat k) (_buffer b ++ extra)
  ∧ ∀ id c c', _indices b !! id = Some c → _indices b' !! id = Some c' →
               c' = c - k ∨ c' = c + 1 - k.

End invariants.

Section more_invariants.
Context {T : Type}.

(** A listener that waits for an unresolved promise stands at the end of the
    buffer. *)
Definition blocked_at_end (b : AsyncBroadcaster (T:=T)) (promises : list bool)
    (gens : list (Generator (T:=T))) : Prop :=
  ∀ g G id p,
    gens !! g = Some G → g_phase G = Awaiting id p →
    default false (promises !! p) = false →
    _indices b !! id = Some (len (_buffer b)).

(** Every entry of the registry belongs to a generator that runs under that
    identity. *)
Definition entries_owned (b : AsyncBroadcaster (T:=T))
    (gens : list (Generator (T:=T))) : Prop :=
  ∀ id, is_Some (_indices b !! id) →
        ∃ g G, gens !! g = Some G ∧ phase_id (g_phase G) = Some id.

Definition inv2 (b : AsyncBroadcaster (T:=T)) (promises : list bool)
    (gens : list (Generator (T:=T))) : Prop :=
  blocked_at_end b promises gens ∧ entries_owned b gens.

Definition Inv2 (w : World) : Prop :=
  inv2 (w_this w) (w_promises w) (w_generators w).

End more_invariants.

(** ** Concrete runs

    The state after the events [es] have happened to a broadcaster of
    integers that was made with an upstream source. *)
Definition after (es : list (event (T:=Z))) : World (T:=Z) :=
  default (new_world true) (run es (new_world true)).

(** * Properties *)

(** ** Numbers and arrays *)

Lemma Math_min_Infinity (values : list Z) :
  Math_min values = Infinity ↔ values = [].
Proof.
  split; [|by intros ->].
  destruct values as [|n values]; [done|].
  simpl. by destruct (Math_min values).
Qed.

Lemma Math_min_Fin (values : list Z) (m : Z) :
  Math_min values = Fin m → m ∈ values ∧ ∀ n, n ∈ values → m ≤ n.
Proof.
  revert m. induction values as [|x values IH]; intros m; [done|].
  simpl. destruct (Math_min values) as [k|] eqn:Hk; simpl; intros [= <-].
  - destruct (IH k eq_refl) as [Hin Hle]. split.
    + destruct (Z.min_spec x k) as [[_ ->]|[_ ->]];
        [apply list_elem_of_here | by apply list_elem_of_further].
    + intros n [->|Hn]%elem_of_cons; [lia|].
      specialize (Hle n Hn). lia.
  - apply Math_min_Infinity in Hk as ->. split; [apply list_elem_of_here|].
    intros n [->|Hn]%elem_of_cons; [lia|]. by apply elem_of_nil in Hn.
Qed.

Lemma Math_min_least (values : list Z) (m : Z) :
  m ∈ values → (∀ n, n ∈ values → m ≤ n) → Math_min values = Fin m.
Proof.
  intros Hin Hle. destruct (Math_min values) as [k|] eqn:Hk.
  - apply Math_min_Fin in Hk as [Hk1 Hk2].
    f_equal. specialize (Hle k Hk1). specialize (Hk2 m Hin). lia.
  - apply Math_min_Infinity in Hk as ->. by apply elem_of_nil in Hin.
Qed.

Lemma splice0_Fin {A : Type} (l : list A) (m : Z) :
  splice0 l (Fin m) = drop (Z.to_nat m) l.
Proof.
  unfold splice0, len. destruct (Z.le_gt_cases m (Z.of_nat (length l))).
  - f_equal. lia.
  - rewrite !drop_ge; [done|lia|lia].
Qed.

Lemma splice0_Infinity {A : Type} (l : list A) : splice0 l Infinity = [].
Proof. unfold splice0, len. rewrite Nat2Z.id. apply drop_all. Qed.

Lemma len_app {A : Type} (l k : list A) : len (l ++ k) = len l + len k.
Proof. unfold len. rewrite length_app. lia. Qed.

Lemma len_drop {A : Type} (l : list A) (m : Z) :
  0 ≤ m ≤ len l → len (drop (Z.to_nat m) l) = len l - m.
Proof. unfold len. rewrite length_drop. lia. Qed.

Lemma array_get_lookup {A : Type} (l : list A) (index : Z) :
  0 ≤ index → array_get l index = l !! Z.to_nat index.
Proof. unfold array_get. intros. by rewrite (proj2 (Z.ltb_ge _ _)). Qed.

(** ** The registry *)

Lemma elem_of_cursors (ix : gmap nat Z) (n : Z) :
  n ∈ (map_to_list ix).*2 ↔ ∃ i, ix !! i = Some n.
Proof.
  rewrite list_elem_of_fmap. split.
  - intros [[i n'] [-> Hin]]. exists i. by apply elem_of_map_to_list.
  - intros [i Hi]. exists (i, n). split; [done|]. by apply elem_of_map_to_list.
Qed.

Lemma cursors_nil (ix : gmap nat Z) : (map_to_list ix).*2 = [] ↔ ix = ∅.
Proof.
  split.
  - intros H. apply fmap_nil_inv in H. by apply map_to_list_empty_iff.
  - intros ->. by rewrite map_to_list_empty.
Qed.

Lemma rebase_fold_lookup (m : Z) (l : list (nat * Z)) (ix : gmap nat Z) (i : nat) :
  foldr (λ e acc, <[e.1 := e.2 - m]> acc) ix l !! i =
  match (list_to_map l : gmap nat Z) !! i with
  | Some n => Some (n - m)
  | None => ix !! i
  end.
Proof.
  induction l as [|[k n] l IH]; simpl; [by rewrite lookup_empty|].
  rewrite !lookup_insert. by case_decide.
Qed.

Lemma rebase_lookup (m : Z) (ix : gmap nat Z) (i : nat) :
  rebase (Fin m) ix !! i = (λ n, n - m) <$> ix !! i.
Proof.
  unfold rebase. rewrite rebase_fold_lookup, list_to_map_to_list.
  by destruct (ix !! i).
Qed.

Lemma rebase_fmap (m : Z) (ix : gmap nat Z) :
  rebase (Fin m) ix = (λ n, n - m) <$> ix.
Proof. apply map_eq. intros i. by rewrite rebase_lookup, lookup_fmap. Qed.

Section trim.
Context {T : Type}.
Implicit Types b : AsyncBroadcaster (T:=T).

(** The minimum cursor of a registry that is not empty. *)
Lemma min_cursor b :
  _indices b ≠ ∅ →
  ∃ m, Math_min (map_to_list (_indices b)).*2 = Fin m
       ∧ (∃ i, _indices b !! i = Some m)
       ∧ (∀ i n, _indices b !! i = Some n → m ≤ n).
Proof.
  intros Hne. destruct (Math_min _) as [m|] eqn:Hm.
  - exists m. apply Math_min_Fin in Hm as [Hin Hle]. split; [done|]. split.
    + by apply elem_of_cursors.
    + intros i n Hi. apply Hle, elem_of_cursors. eauto.
  - by apply Math_min_Infinity, cursors_nil in Hm.
Qed.

Lemma trim_Fin b (m : Z) :
  Math_min (map_to_list (_indices b)).*2 = Fin m →
  _trim b =
    if 0 <? m
    then set_indices ((λ n, n - m) <$> _indices b)
           (set_buffer (drop (Z.to_nat m) (_buffer b)) b)
    else b.
Proof.
  intros Hm. unfold _trim. rewrite Hm. cbn [num_pos].
  destruct (0 <? m); [|done]. by rewrite rebase_fmap, splice0_Fin.
Qed.

Lemma trim_empty b : _indices b = ∅ → _trim b = set_buffer [] b.
Proof.
  intros He. unfold _trim. rewrite He, map_to_list_empty.
  cbn [fmap list_fmap Math_min foldr num_pos rebase].
  rewrite splice0_Infinity, <- He. by destruct b.
Qed.

(** [_trim] keeps the fields it does not mention. *)
Lemma trim_fields b :
  _nextGeneratorID (_trim b) = _nextGeneratorID b
  ∧ _nextValue (_trim b) = _nextValue b
  ∧ _resolveNextValue (_trim b) = _resolveNextValue b.
Proof. unfold _trim. by destruct (num_pos _). Qed.

(** The minimum cursor is 0 after a trim by a positive minimum. *)
Lemma min_after_rebase (ix : gmap nat Z) (m : Z) :
  Math_min (map_to_list ix).*2 = Fin m →
  Math_min (map_to_list ((λ n, n - m) <$> ix)).*2 = Fin 0.
Proof.
  intros [[i Hi]%elem_of_cursors Hle]%Math_min_Fin. apply Math_min_least.
  - apply elem_of_cursors. exists i. rewrite lookup_fmap, Hi. simpl.
    f_equal. lia.
  - intros n [j Hj]%elem_of_cursors. rewrite lookup_fmap in Hj.
    destruct (ix !! j) as [n'|] eqn:Hn'; [|done].
    injection Hj as <-.
    assert (m ≤ n') by (apply Hle, elem_of_cursors; eauto). lia.
Qed.

Lemma trim_idemp b : _trim (_trim b) = _trim b.
Proof.
  destruct (Math_min (map_to_list (_indices b)).*2) as [m|] eqn:Hm.
  - rewrite (trim_Fin b m Hm). destruct (0 <? m) eqn:Hpos.
    + apply min_after_rebase in Hm.
      by rewrite (trim_Fin (set_indices _ (set_buffer _ b)) 0 Hm).
    + by rewrite (trim_Fin b m Hm), Hpos.
  - apply Math_min_Infinity, cursors_nil in Hm.
    rewrite (trim_empty b Hm). by rewrite trim_empty.
Qed.

Lemma trim_lookup_None b (i : nat) :
  _indices b !! i = None → _indices (_trim b) !! i = None.
Proof.
  intros Hi. destruct (Math_min (map_to_list (_indices b)).*2) as [m|] eqn:Hm.
  - rewrite (trim_Fin b m Hm). destruct (0 <? m); [|done].
    simpl. by rewrite lookup_fmap, Hi.
  - apply Math_min_Infinity, cursors_nil in Hm. by rewrite (trim_empty b Hm).
Qed.

Lemma cleanup_idemp (id : nat) b : _cleanup id (_cleanup id b) = _cleanup id b.
Proof.
  unfold _cleanup at 1.
  assert (delete id (_indices (_cleanup id b)) = _indices (_cleanup id b)) as ->.
  { apply delete_id, trim_lookup_None. simpl. apply lookup_delete_eq. }
  assert (set_indices (_indices (_cleanup id b)) (_cleanup id b)
          = _cleanup id b) as -> by (by destruct (_cleanup id b)).
  apply trim_idemp.
Qed.

(** A trim is a shift, by an amount that is at most every cursor. *)
Lemma trim_shift b : cursors_ok b → ∃ k, shifted k b (_trim b).
Proof.
  intros Hok. destruct (trim_fields b) as (Hf1 & Hf2 & Hf3).
  destruct (Math_min (map_to_list (_indices b)).*2) as [m|] eqn:Hm.
  - pose proof Hm as [[i Hi]%elem_of_cursors Hle]%Math_min_Fin.
    assert (∀ j n, _indices b !! j = Some n → m ≤ n) as Hle'.
    { intros j n Hj. apply Hle, elem_of_cursors. eauto. }
    destruct (Hok i m Hi) as [Hm0 Hmlen].
    destruct (0 <? m) eqn:Hpos.
    + exists m. rewrite (trim_Fin b m Hm), Hpos in *. by repeat split.
    + apply Z.ltb_ge in Hpos. assert (m = 0) as -> by lia.
      exists 0. rewrite (trim_Fin b 0 Hm). simpl.
      repeat split; try done; try (unfold len; lia).
      apply map_eq. intros j. rewrite lookup_fmap.
      destruct (_indices b !! j); simpl; [f_equal; lia|done].
  - apply Math_min_Infinity, cursors_nil in Hm.
    exists (len (_buffer b)). rewrite (trim_empty b Hm) in *.
    unfold shifted, len. simpl. rewrite Hm, Nat2Z.id, drop_all, fmap_empty.
    repeat split; try lia; try done.
Qed.

(** *** C2 *)

(** C2: in a state with at least one registered listener the minimum cursor
    [m] exists.  When [m > 0], [_trim] drops the first [m] values of the
    buffer (exactly [m] of them whenever the buffer holds that many), subtracts
    [m] from every registered cursor, so that the minimum cursor is 0
    afterwards, and keeps the other fields; when [m = 0], [_trim] changes
    nothing. *)
Theorem trim_by_min_cursor b :
  _indices b ≠ ∅ →
  ∃ m,
    Math_min (map_to_list (_indices b)).*2 = Fin m
    ∧ (∃ i, _indices b !! i = Some m)
    ∧ (∀ i n, _indices b !! i = Some n → m ≤ n)
    ∧ (0 < m →
         _buffer (_trim b) = drop (Z.to_nat m) (_buffer b)
         ∧ _buffer b = take (Z.to_nat m) (_buffer b) ++ _buffer (_trim b)
         ∧ (m ≤ len (_buffer b) →
              len (take (Z.to_nat m) (_buffer b)) = m
              ∧ len (_buffer (_trim b)) = len (_buffer b) - m)
         ∧ (∀ i, _indices (_trim b) !! i = (λ n, n - m) <$> _indices b !! i)
         ∧ Math_min (map_to_list (_indices (_trim b))).*2 = Fin 0
         ∧ _nextGeneratorID (_trim b) = _nextGeneratorID b
         ∧ _nextValue (_trim b) = _nextValue b
         ∧ _resolveNextValue (_trim b) = _resolveNextValue b)
    ∧ (m = 0 → _trim b = b).
Proof.
  intros Hne. destruct (min_cursor b Hne) as (m & Hm & [i Hi] & Hle).
  exists m. split; [done|]. split; [by exists i|]. split; [done|].
  rewrite (trim_Fin b m Hm). split.
  - intros Hpos. rewrite (proj2 (Z.ltb_lt 0 m) Hpos). simpl.
    split; [done|]. split; [by rewrite take_drop|]. split.
    { intros Hlen. split; [|by apply len_drop; lia].
      unfold len in *. rewrite length_take. lia. }
    split; [intros j; by rewrite lookup_fmap|]. split; [|done].
    by apply min_after_rebase.
  - intros ->. done.
Qed.

(** *** C5 *)

(** C5, as amended: with no listener registered, [_trim] empties the buffer
    and changes nothing else. *)
Theorem trim_no_listeners b :
  _indices b = ∅ →
  _buffer (_trim b) = []
  ∧ _indices (_trim b) = ∅
  ∧ _nextGeneratorID (_trim b) = _nextGeneratorID b
  ∧ _nextValue (_trim b) = _nextValue b
  ∧ _resolveNextValue (_trim b) = _resolveNextValue b.
Proof. intros He. by rewrite (trim_empty b He). Qed.

End trim.

(** ** Preservation of the invariants by the methods *)

Section preservation.
Context {T : Type}.
Implicit Types (b : AsyncBroadcaster (T:=T)) (G : Generator (T:=T)).
Implicit Types (ps : list bool) (pr : list T).

Lemma shifted_lookup (k : Z) b b' (i : nat) (n : Z) :
  shifted k b b' → _indices b !! i = Some n →
  _indices b' !! i = Some (n - k) ∧ k ≤ n.
Proof.
  intros (_ & Hle & _ & Hix & _) Hi.
  rewrite Hix, lookup_fmap, Hi. split; [done|]. by apply (Hle i).
Qed.

Lemma shifted_len (k : Z) b b' :
  shifted k b b' → len (_buffer b') = len (_buffer b) - k.
Proof. intros (Hk & _ & -> & _). by apply len_drop. Qed.

Lemma shifted_drop (k c : Z) b b' :
  shifted k b b' → k ≤ c →
  drop (Z.to_nat (c - k)) (_buffer b') = drop (Z.to_nat c) (_buffer b).
Proof.
  intros (Hk & _ & -> & _) Hc. rewrite drop_drop. f_equal. lia.
Qed.

Lemma this_ok_shift (k : Z) b b' ps :
  shifted k b b' → this_ok b ps → this_ok b' ps.
Proof.
  intros Hs (Hc & Hid & Hres & Hp).
  pose proof (shifted_len _ _ _ Hs) as Hlen.
  destruct Hs as (Hk & Hle & Hbuf & Hix & Hf1 & Hf2 & Hf3).
  split; [|split; [|split]].
  - intros i n. rewrite Hix, lookup_fmap.
    destruct (_indices b !! i) as [n0|] eqn:Hn0; [|done].
    intros [= <-]. specialize (Hle i n0 Hn0). specialize (Hc i n0 Hn0). lia.
  - intros i. rewrite Hix, lookup_fmap, fmap_is_Some, Hf1. apply Hid.
  - by rewrite Hf2, Hf3.
  - intros p. rewrite Hf2. apply Hp.
Qed.

Lemma trace_ok_shift (k c : Z) b b' pr (N : nat) log :
  shifted k b b' → k ≤ c →
  trace_ok pr (_buffer b) N c log → trace_ok pr (_buffer b') N (c - k) log.
Proof.
  intros Hs Hc [HN Htr]. split; [done|].
  by rewrite (shifted_drop _ _ _ _ Hs Hc).
Qed.

Lemma gen_ok_shift (k : Z) b b' ps pr G :
  shifted k b b' → gen_ok b ps pr G → gen_ok b' ps pr G.
Proof.
  intros Hs. pose proof (shifted_len _ _ _ Hs) as Hlen.
  pose proof Hs as (_ & _ & _ & _ & _ & Hf2 & _).
  unfold gen_ok. destruct (g_phase G) as [|id p|id|]; [done| | |done].
  - intros (N & c & HN & Hc & Htr & Hp).
    destruct (shifted_lookup _ _ _ _ _ Hs Hc) as [Hc' Hkc].
    exists N, (c - k). split; [done|]. split; [done|].
    split; [by apply (trace_ok_shift k c b)|].
    destruct Hp as [[Hp Hlt]|Hp]; [left; split; [done|lia]|right; congruence].
  - intros (N & c & HN & Hc & Htr).
    destruct (shifted_lookup _ _ _ _ _ Hs Hc) as [Hc' Hkc].
    exists N, (c - k). split; [done|]. split; [done|].
    by apply (trace_ok_shift k c b).
Qed.

(** A change of the registry that keeps the cursor of [G]. *)
Lemma gen_ok_frame b b' ps pr G :
  _buffer b' = _buffer b → _nextValue b' = _nextValue b →
  (∀ id, phase_id (g_phase G) = Some id →
         _indices b' !! id = _indices b !! id) →
  gen_ok b ps pr G → gen_ok b' ps pr G.
Proof.
  intros Hbuf Hnv Hix. unfold gen_ok.
  destruct (g_phase G) as [|id p|id|]; [done| | |done]; simpl in Hix.
  - intros (N & c & HN & Hc & Htr & Hp). exists N, c.
    by rewrite Hbuf, Hnv, (Hix id eq_refl).
  - intros (N & c & HN & Hc & Htr). exists N, c.
    by rewrite Hbuf, (Hix id eq_refl).
Qed.

Lemma trace_ok_push (v : T) pr buf (N : nat) (c : Z) log :
  0 ≤ c ≤ len buf →
  trace_ok pr buf N c log → trace_ok (pr ++ [v]) (buf ++ [v]) N c log.
Proof.
  intros Hc [HN Htr]. split; [rewrite length_app; lia|].
  rewrite !drop_app_le, !fmap_app, Htr, (assoc_L (++)); [done| |done].
  unfold len in Hc. lia.
Qed.

(** One turn of the loop of [_pushAll]. *)
Lemma gen_ok_push (v : T) b ps pr G :
  this_ok b ps → gen_ok b ps pr G →
  gen_ok (push_value v b)
    (match _resolveNextValue b with
     | Some p => <[p := true]> ps
     | None => ps
     end) (pr ++ [v]) G.
Proof.
  intros (Hc & _ & Hres & Hpend). unfold gen_ok.
  assert (∀ p, ps !! p = Some true →
    match _resolveNextValue b with
    | Some p' => <[p' := true]> ps
    | None => ps
    end !! p = Some true) as Hkeep.
  { intros p Hp. destruct (_resolveNextValue b) as [p'|]; [|done].
    destruct (decide (p' = p)) as [->|Hne].
    - apply list_lookup_insert_eq. by eapply lookup_lt_Some.
    - by rewrite list_lookup_insert_ne. }
  destruct (g_phase G) as [|id p|id|]; [done| | |]; simpl.
  - intros (N & c & HN & Hi & Htr & Hp). exists N, c.
    specialize (Hc id c Hi). split; [done|]. split; [done|].
    split; [by apply trace_ok_push|]. left. rewrite len_app.
    split; [|unfold len at 2; simpl; lia].
    destruct Hp as [[Hp _]|Hp]; [by apply Hkeep|].
    rewrite Hres, Hp. apply list_lookup_insert_eq.
    eapply lookup_lt_Some. by apply Hpend.
  - intros (N & c & HN & Hi & Htr). exists N, c.
    specialize (Hc id c Hi). split; [done|]. split; [done|].
    by apply trace_ok_push.
  - destruct (g_joined G) as [N|]; [|done]. intros [HN Hpre].
    split; [rewrite length_app; lia|].
    rewrite drop_app_le, fmap_app by done.
    by apply prefix_app_r.
Qed.

(** Lines 63-65 when no promise is pending. *)
Lemma gen_ok_new_promise b ps pr G :
  _nextValue b = None → gen_ok b ps pr G →
  gen_ok (set_nextValue (length ps) b) (ps ++ [false]) pr G.
Proof.
  intros Hnone. unfold gen_ok.
  destruct (g_phase G) as [|id p|id|]; [done| |done|done]; simpl.
  intros (N & c & HN & Hi & Htr & Hp). exists N, c.
  split; [done|]. split; [done|]. split; [done|].
  destruct Hp as [[Hp Hlt]|Hp]; [|congruence].
  left. split; [|done]. rewrite lookup_app_l; [done|].
  by eapply lookup_lt_Some.
Qed.

(** What the invariant says about a generator that has an identity. *)
Lemma gen_ok_registered b ps pr G (id : nat) :
  gen_ok b ps pr G → phase_id (g_phase G) = Some id →
  ∃ N c, g_joined G = Some N ∧ _indices b !! id = Some c
         ∧ trace_ok pr (_buffer b) N c (g_log G).
Proof.
  unfold gen_ok. destruct (g_phase G) as [|id' p|id'|]; simpl; try done.
  - intros (N & c & ? & ? & ? & _) [= <-]. by exists N, c.
  - intros (N & c & ? & ? & ?) [= <-]. by exists N, c.
Qed.

(** The invariant after the generator object [g] has been replaced. *)
Lemma inv_update (g : nat) G' b' ps' pr' (gens : list Generator) :
  this_ok b' ps' →
  (∀ g' G'', g' ≠ g → gens !! g' = Some G'' → gen_ok b' ps' pr' G'') →
  gen_ok b' ps' pr' G' →
  unique_ids gens →
  (∀ id g' G'', phase_id (g_phase G') = Some id → g' ≠ g →
                gens !! g' = Some G'' → phase_id (g_phase G'') ≠ Some id) →
  inv b' ps' (<[g := G']> gens) pr'.
Proof.
  intros Hthis Hothers Hg Huniq Hfresh. split; [done|]. split.
  - intros g1 G1 [(-> & -> & _)|[Hne HG1]]%list_lookup_insert_Some; [done|].
    by apply (Hothers g1).
  - intros g1 g2 G1 G2 id
      [(<- & <- & _)|[Hne1 HG1]]%list_lookup_insert_Some
      [(<- & <- & _)|[Hne2 HG2]]%list_lookup_insert_Some Hid1 Hid2; try done.
    + by destruct (Hfresh id g2 G2 Hid1 ltac:(done) HG2).
    + by destruct (Hfresh id g1 G1 Hid2 ltac:(done) HG1).
    + by apply (Huniq g1 g2 G1 G2 id).
Qed.

Section world_steps.
Context (w : World (T:=T)) (g : nat) (G : Generator (T:=T)) (id : nat).
Hypothesis HInv : Inv w.
Hypothesis HG : w_generators w !! g = Some G.
Hypothesis Hid : phase_id (g_phase G) = Some id.

Lemma others_have_other_ids (g' : nat) G' :
  g' ≠ g → w_generators w !! g' = Some G' →
  phase_id (g_phase G') ≠ Some id.
Proof.
  intros Hne HG' Hid'. destruct HInv as (_ & _ & Huniq).
  by apply Hne, (Huniq g' g G' G id).
Qed.

(** The generator [g] yields the value under its cursor (lines 79-82). *)
Lemma Inv_deliver (index : Z) :
  _indices (w_this w) !! id = Some index →
  index < len (_buffer (w_this w)) →
  Inv (deliver g G id index w).
Proof.
  intros Hindex Hlt. destruct HInv as (Hthis & Hgens & Huniq).
  destruct (gen_ok_registered _ _ _ _ _ (Hgens g G HG) Hid)
    as (N & c & HN & Hc & Htr).
  assert (c = index) as -> by congruence.
  pose proof Hthis as (Hcur & Hids & Hres & Hpend).
  destruct (Hcur id index Hindex) as [H0 _].
  set (b1 := set_indices (<[id := index + 1]> (_indices (w_this w))) (w_this w)).
  assert (this_ok b1 (w_promises w)) as Hthis1.
  { split; [|split; [|done]].
    - intros i n. unfold b1. simpl.
      intros [[<- <-]|[_ Hi]]%lookup_insert_Some; [lia|]. by apply (Hcur i).
    - intros i. unfold b1. simpl.
      intros [<-|[_ Hi]]%lookup_insert_is_Some; [|by apply Hids].
      apply Hids. by rewrite Hindex. }
  destruct (trim_shift b1 (proj1 Hthis1)) as [k Hk].
  unfold Inv, deliver, advance. simpl. fold b1.
  apply inv_update; try done.
  - by apply (this_ok_shift k b1).
  - intros g' G' Hne HG'. apply (gen_ok_shift k b1); [done|].
    apply (gen_ok_frame (w_this w)); [done|done| |by apply (Hgens g')].
    intros id' Hid'. simpl. apply lookup_insert_ne.
    intros <-. by apply (others_have_other_ids g' G').
  - apply (gen_ok_shift k b1); [done|].
    unfold gen_ok. simpl. exists N, (index + 1).
    split; [done|]. split; [apply lookup_insert_eq|].
    destruct Htr as [HNle Htr]. split; [done|].
    rewrite Htr, array_get_lookup by done.
    assert (is_Some (_buffer (w_this w) !! Z.to_nat index)) as [v Hv].
    { apply lookup_lt_is_Some. unfold len in Hlt. lia. }
    rewrite Hv, (drop_S _ v _ Hv), fmap_cons, <- (assoc_L (++)). simpl.
    by replace (Z.to_nat (index + 1)) with (S (Z.to_nat index)) by lia.
  - intros id' g' G' [= <-] Hne HG'. by apply (others_have_other_ids g').
Qed.

(** The generator [g] starts to wait (lines 63-67). *)
Lemma Inv_wait : Inv (wait g G id w).
Proof.
  destruct HInv as (Hthis & Hgens & Huniq).
  destruct (gen_ok_registered _ _ _ _ _ (Hgens g G HG) Hid)
    as (N & c & HN & Hc & Htr).
  pose proof Hthis as (Hcur & Hids & Hres & Hpend).
  unfold Inv, wait. destruct (_nextValue (w_this w)) as [p|] eqn:Hnext; simpl.
  - apply inv_update; try done.
    + intros g' G' _ HG'. by apply (Hgens g').
    + unfold gen_ok. simpl. exists N, c.
      split; [done|]. split; [done|]. split; [done|]. by right.
    + intros id' g' G' [= <-] Hne HG'. by apply (others_have_other_ids g').
  - apply inv_update; try done.
    + split; [done|]. split; [done|]. split; [done|]. simpl.
      intros p [= <-]. by rewrite lookup_app_r, Nat.sub_diag.
    + intros g' G' _ HG'. apply gen_ok_new_promise; [done|].
      by apply (Hgens g').
    + unfold gen_ok. simpl. exists N, c.
      split; [done|]. split; [done|]. split; [done|]. by right.
    + intros id' g' G' [= <-] Hne HG'. by apply (others_have_other_ids g').
Qed.

(** The generator [g] ends through the outer [finally] (lines 84-89). *)
Lemma Inv_finish : Inv (finish g G id w).
Proof.
  destruct HInv as (Hthis & Hgens & Huniq).
  destruct (gen_ok_registered _ _ _ _ _ (Hgens g G HG) Hid)
    as (N & c & HN & Hc & Htr).
  pose proof Hthis as (Hcur & Hids & Hres & Hpend).
  set (b1 := set_indices (delete id (_indices (w_this w))) (w_this w)).
  assert (this_ok b1 (w_promises w)) as Hthis1.
  { split; [|split; [|done]].
    - intros i n. unfold b1. simpl.
      intros [_ Hi]%lookup_delete_Some. by apply (Hcur i).
    - intros i. unfold b1. simpl.
      intros [_ Hi]%lookup_delete_is_Some. by apply Hids. }
  destruct (trim_shift b1 (proj1 Hthis1)) as [k Hk].
  unfold Inv, finish, _cleanup. simpl. fold b1.
  apply inv_update; try done.
  - by apply (this_ok_shift k b1).
  - intros g' G' Hne HG'. apply (gen_ok_shift k b1); [done|].
    apply (gen_ok_frame (w_this w)); [done|done| |by apply (Hgens g')].
    intros id' Hid'. simpl. apply lookup_delete_ne.
    intros <-. by apply (others_have_other_ids g' G').
  - unfold gen_ok. simpl. rewrite HN. destruct Htr as [HNle ->].
    split; [done|]. by apply prefix_app_r.
Qed.

End world_steps.

(** [loop_turn] reads neither the phase of the generator nor the stored
    generator object. *)
Lemma loop_turn_slot (g : nat) G G0 (id : nat) (ph : phase) (w : World) :
  loop_turn g (set_phase ph G) id (set_generator g G0 w) = loop_turn g G id w.
Proof.
  unfold loop_turn, signal_aborted. simpl. destruct (g_signal G) as [s|].
  - destruct (bool_decide _).
    + unfold finish, set_generator, set_this, set_phase. simpl.
      by rewrite list_insert_insert_eq.
    + destruct (_indices (w_this w) !! id) as [index|]; [|done]. simpl.
      destruct (index =? _).
      * unfold wait. simpl. destruct (_nextValue (w_this w));
          unfold set_generator, set_phase; simpl;
          by rewrite list_insert_insert_eq.
      * unfold deliver, set_generator, set_this. simpl.
        by rewrite list_insert_insert_eq.
  - destruct (_indices (w_this w) !! id) as [index|]; [|done]. simpl.
    destruct (index =? _).
    + unfold wait. simpl. destruct (_nextValue (w_this w));
        unfold set_generator, set_phase; simpl;
        by rewrite list_insert_insert_eq.
    + unfold deliver, set_generator, set_this. simpl.
      by rewrite list_insert_insert_eq.
Qed.

(** The second [_cleanup] of the abort path changes nothing. *)
Lemma finish_cleanup (g : nat) G (id : nat) (w : World) :
  finish g G id (set_this (_cleanup id (w_this w)) w) = finish g G id w.
Proof. unfold finish, set_this, set_generator. simpl. by rewrite cleanup_idemp. Qed.

(** The body of [_values] up to the [try] (lines 50-55). *)
Lemma Inv_register (w : World) (g : nat) G :
  Inv w → w_generators w !! g = Some G → g_phase G = SuspendedStart →
  Inv (set_generator g
         {| g_signal := g_signal G;
            g_phase := SuspendedYield (_nextGeneratorID (w_this w));
            g_joined := Some (length (w_produced w));
            g_log := g_log G |}
         (set_this (register (w_this w)) w)).
Proof.
  intros (Hthis & Hgens & Huniq) HG Hph.
  pose proof Hthis as (Hcur & Hids & Hres & Hpend).
  assert (∀ g' G' id, w_generators w !! g' = Some G' →
            phase_id (g_phase G') = Some id →
            id ≠ _nextGeneratorID (w_this w)) as Hfresh.
  { intros g' G' id HG' Hid ->.
    destruct (gen_ok_registered _ _ _ _ _ (Hgens g' G' HG') Hid)
      as (N & c & _ & Hc & _).
    assert (_nextGeneratorID (w_this w) < _nextGeneratorID (w_this w))%nat;
      [apply Hids; by rewrite Hc|lia]. }
  unfold Inv. simpl. apply inv_update; try done.
  - split; [|split; [|done]].
    + intros i n. unfold register. simpl.
      intros [[<- <-]|[_ Hi]]%lookup_insert_Some; [unfold len; lia|].
      by apply (Hcur i).
    + intros i. unfold register. simpl.
      intros [<-|[_ Hi]]%lookup_insert_is_Some; [lia|].
      specialize (Hids i Hi). lia.
  - intros g' G' Hne HG'.
    apply (gen_ok_frame (w_this w)); [done|done| |by apply (Hgens g')].
    intros id Hid. simpl. apply lookup_insert_ne.
    intros Heq. by apply (Hfresh g' G' id).
  - specialize (Hgens g G HG). unfold gen_ok in Hgens. rewrite Hph in Hgens.
    destruct Hgens as [_ Hlog]. unfold gen_ok. simpl.
    exists (length (w_produced w)), (len (_buffer (w_this w))).
    split; [done|]. split; [apply lookup_insert_eq|]. split; [done|].
    unfold len. by rewrite Hlog, Nat2Z.id, !drop_all.
  - intros id g' G' [= <-] Hne HG' Hid. by apply (Hfresh g' G' _ HG' Hid).
Qed.

Lemma Inv_loop_turn (w w' : World) (g : nat) G (id : nat) :
  Inv w → w_generators w !! g = Some G → phase_id (g_phase G) = Some id →
  loop_turn g G id w = Some w' → Inv w'.
Proof.
  intros HInv HG Hid. unfold loop_turn.
  destruct (signal_aborted w G).
  { intros [= <-]. by apply Inv_finish. }
  destruct (_indices (w_this w) !! id) as [index|] eqn:Hindex; [|done]. simpl.
  destruct (index =? _) eqn:Hend; intros [= <-].
  - by apply Inv_wait.
  - apply Inv_deliver; try done. apply Z.eqb_neq in Hend.
    destruct HInv as ((Hcur & _) & _). specialize (Hcur id index Hindex). lia.
Qed.

Lemma Inv_after_await (w w' : World) (g : nat) G (id p : nat) :
  Inv w → w_generators w !! g = Some G → g_phase G = Awaiting id p →
  promise_resolved w p || signal_aborted w G = true →
  after_await g G id w = Some w' → Inv w'.
Proof.
  intros HInv HG Hph Hready. unfold after_await.
  assert (phase_id (g_phase G) = Some id) as Hid by (by rewrite Hph).
  destruct (signal_aborted w G).
  { intros [= <-]. rewrite finish_cleanup. by apply Inv_finish. }
  destruct (_indices (w_this w) !! id) as [index|] eqn:Hindex; [|done]. simpl.
  intros [= <-]. apply Inv_deliver; try done.
  destruct HInv as ((_ & _ & _ & Hpend) & Hgens & _).
  specialize (Hgens g G HG). unfold gen_ok in Hgens. rewrite Hph in Hgens.
  destruct Hgens as (N & c & _ & Hc & _ & [[_ Hlt]|Hnext]); [congruence|].
  unfold promise_resolved in Hready. rewrite (Hpend p Hnext) in Hready.
  done.
Qed.

Lemma Inv_new_world (has_iterable : bool) :
  Inv (new_world has_iterable : World (T:=T)).
Proof.
  split; [|split].
  - split; [|split; [|done]].
    + intros i n. simpl. by rewrite lookup_empty.
    + intros i. simpl. rewrite lookup_empty. by intros [? ?].
  - done.
  - done.
Qed.

Theorem Inv_step (e : event) (w w' : World (T:=T)) :
  Inv w → step e w = Some w' → Inv w'.
Proof.
  intros HInv. pose proof HInv as (Hthis & Hgens & Huniq).
  destruct e as [signal|g|g|g|v| |s]; simpl.
  - intros [= <-]. unfold Inv. simpl. split; [done|]. split.
    + intros g G [HG|[_ HG]]%lookup_app_Some; [by apply (Hgens g)|].
      by apply list_lookup_singleton_Some in HG as [_ <-].
    + intros g1 g2 G1 G2 id
        [HG1|[_ HG1]]%lookup_app_Some [HG2|[_ HG2]]%lookup_app_Some;
        try (apply list_lookup_singleton_Some in HG1 as [_ <-]);
        try (apply list_lookup_singleton_Some in HG2 as [_ <-]);
        try done.
      by apply Huniq.
  - unfold next. destruct (w_generators w !! g) as [G|] eqn:HG; [|done].
    simpl. destruct (g_phase G) as [|id p|id|] eqn:Hph; [| done | |].
    + rewrite <- (loop_turn_slot g _
        {| g_signal := g_signal G;
           g_phase := SuspendedYield (_nextGeneratorID (w_this w));
           g_joined := Some (length (w_produced w));
           g_log := g_log G |}
        _ (SuspendedYield (_nextGeneratorID (w_this w)))).
      apply Inv_loop_turn; [by apply Inv_register| |done].
      apply list_lookup_insert_eq. by eapply lookup_lt_Some.
    + apply Inv_loop_turn; [done|done|by rewrite Hph].
    + by intros [= <-].
  - unfold return_. destruct (w_generators w !! g) as [G|] eqn:HG; [|done].
    simpl. destruct (g_phase G) as [|id p|id|] eqn:Hph; [| done | |].
    + intros [= <-]. unfold Inv. simpl. apply inv_update; try done.
      * intros g' G' _ HG'. by apply (Hgens g').
      * specialize (Hgens g G HG). unfold gen_ok in *. rewrite Hph in Hgens.
        simpl. by destruct Hgens as [-> ->].
    + intros [= <-]. apply Inv_finish; [done|done|by rewrite Hph].
    + by intros [= <-].
  - unfold settle. destruct (w_generators w !! g) as [G|] eqn:HG; [|done].
    simpl. destruct (g_phase G) as [|id p|id|] eqn:Hph; try done.
    destruct (promise_resolved w p || signal_aborted w G) eqn:Hready; [|done].
    by apply (Inv_after_await w w' g G id p).
  - unfold produce. destruct (w_pushing w); [|done]. intros [= <-].
    unfold Inv. simpl. split; [|split; [|done]].
    + destruct Hthis as (Hcur & Hids & Hres & Hpend).
      split; [|split; [|done]].
      * intros i n Hi. specialize (Hcur i n Hi). simpl. rewrite len_app.
        unfold len at 2. simpl. lia.
      * done.
    + intros g G HG. apply gen_ok_push; [done|]. by apply (Hgens g).
  - unfold finish_upstream. destruct (w_pushing w); [|done]. by intros [= <-].
  - by intros [= <-].
Qed.

Theorem Inv_run (es : list event) (w w' : World (T:=T)) :
  Inv w → run es w = Some w' → Inv w'.
Proof.
  revert w. induction es as [|e es IH]; intros w HInv; simpl.
  - by intros [= <-].
  - destruct (step e w) as [w1|] eqn:Hstep; [|done]. simpl.
    apply IH. by apply (Inv_step e w).
Qed.

Theorem Inv_reachable (w : World (T:=T)) : reachable w → Inv w.
Proof.
  intros (has_iterable & es & Hrun).
  apply (Inv_run es (new_world has_iterable)); [|done].
  apply Inv_new_world.
Qed.

End preservation.

(** ** The shape of a step *)

Section shape.
Context {T : Type}.
Implicit Types (w : World (T:=T)) (G : Generator (T:=T)).

Lemma gen_step_refl w G : gen_step w G G.
Proof. split; [done|by left]. Qed.

Lemma loop_turn_shape (g id : nat) G w w' :
  loop_turn g G id w = Some w' →
  ∃ G', w_generators w' = <[g := G']> (w_generators w)
        ∧ gen_step w G G' ∧ g_joined G' = g_joined G
        ∧ w_aborted w' = w_aborted w
        ∧ w_produced w' = w_produced w
        ∧ w_pushing w' = w_pushing w.
Proof.
  unfold loop_turn. destruct (signal_aborted w G) eqn:Hab.
  { intros [= <-]. exists (set_phase Completed G).
    repeat split; try done. by left. }
  destruct (_indices (w_this w) !! id) as [index|]; [|done]. simpl.
  destruct (index =? _); intros [= <-].
  - exists (set_phase (Awaiting id
      (default (length (w_promises w)) (_nextValue (w_this w)))) G).
    unfold wait. destruct (_nextValue (w_this w)); simpl;
      repeat split; try done; by left.
  - eexists. split; [done|]. repeat split; simpl; try done.
    right. split; [done|]. by eexists.
Qed.

Lemma after_await_shape (g id : nat) G w w' :
  after_await g G id w = Some w' →
  ∃ G', w_generators w' = <[g := G']> (w_generators w)
        ∧ gen_step w G G' ∧ g_joined G' = g_joined G
        ∧ w_aborted w' = w_aborted w
        ∧ w_produced w' = w_produced w
        ∧ w_pushing w' = w_pushing w.
Proof.
  unfold after_await. destruct (signal_aborted w G) eqn:Hab.
  { intros [= <-]. exists (set_phase Completed G).
    repeat split; try done. by left. }
  destruct (_indices (w_this w) !! id) as [index|]; [|done]. simpl.
  intros [= <-]. eexists. split; [done|]. repeat split; simpl; try done.
  right. split; [done|]. by eexists.
Qed.

(** What a step does to the histories and to the set of fired signals. *)
Lemma step_histories (e : event) w w' :
  step e w = Some w' →
  w_produced w' = w_produced w ++ appended e
  ∧ w_aborted w ⊆ w_aborted w'
  ∧ (w_pushing w = false → w_pushing w' = false ∧ appended e = [])
  ∧ (length (w_generators w) ≤ length (w_generators w'))%nat.
Proof.
  destruct e as [signal|g|g|g|v| |s]; simpl.
  - intros [= <-]. simpl. rewrite app_nil_r, length_app. auto with lia.
  - unfold next. destruct (w_generators w !! g) as [G|]; [|done]. simpl.
    destruct (g_phase G); try done.
    + intros (G' & -> & _ & _ & -> & -> & ->)%loop_turn_shape. simpl.
      rewrite app_nil_r, length_insert. auto.
    + intros (G' & -> & _ & _ & -> & -> & ->)%loop_turn_shape.
      rewrite app_nil_r, length_insert. auto.
    + intros [= <-]. rewrite app_nil_r. auto.
  - unfold return_. destruct (w_generators w !! g) as [G|]; [|done]. simpl.
    destruct (g_phase G); try done; intros [= <-]; simpl;
      rewrite app_nil_r, ?length_insert; auto.
  - unfold settle. destruct (w_generators w !! g) as [G|]; [|done]. simpl.
    destruct (g_phase G); try done. destruct (_ || _); [|done].
    intros (G' & -> & _ & _ & -> & -> & ->)%after_await_shape.
    rewrite app_nil_r, length_insert. auto.
  - unfold produce. destruct (w_pushing w); [|done]. intros [= <-]. simpl.
    repeat split; auto; done.
  - unfold finish_upstream. destruct (w_pushing w); [|done].
    intros [= <-]. simpl. rewrite app_nil_r. auto.
  - intros [= <-]. simpl. rewrite app_nil_r. repeat split; auto.
    set_solver.
Qed.

(** What a step does to a generator object. *)
Lemma step_generator (e : event) w w' (g : nat) G :
  step e w = Some w' → w_generators w !! g = Some G →
  ∃ G', w_generators w' !! g = Some G'
        ∧ gen_step w G G'
        ∧ (g_joined G' = g_joined G
           ∨ (g_phase G = SuspendedStart ∧ e = Next g
              ∧ g_joined G' = Some (length (w_produced w))))
        ∧ (g_phase G = Completed → G' = G).
Proof.
  intros Hstep HG.
  assert (∀ g0 G0 G0',
    w_generators w !! g0 = Some G0 →
    w_generators w' = <[g0 := G0']> (w_generators w) →
    gen_step w G0 G0' →
    (g_joined G0' = g_joined G0
     ∨ (g_phase G0 = SuspendedStart ∧ e = Next g0
        ∧ g_joined G0' = Some (length (w_produced w)))) →
    (g_phase G0 = Completed → G0' = G0) →
    ∃ G', w_generators w' !! g = Some G'
          ∧ gen_step w G G'
          ∧ (g_joined G' = g_joined G
             ∨ (g_phase G = SuspendedStart ∧ e = Next g
                ∧ g_joined G' = Some (length (w_produced w))))
          ∧ (g_phase G = Completed → G' = G)) as Hslot.
  { intros g0 G0 G0' HG0 -> Hgs Hj Hc. destruct (decide (g0 = g)) as [->|Hne].
    - assert (G0 = G) as -> by congruence. exists G0'.
      split; [|done]. apply list_lookup_insert_eq. by eapply lookup_lt_Some.
    - exists G. rewrite list_lookup_insert_ne by done.
      split; [done|]. split; [apply gen_step_refl|]. by split; [left|]. }
  assert (w_generators w' = w_generators w →
    ∃ G', w_generators w' !! g = Some G'
          ∧ gen_step w G G'
          ∧ (g_joined G' = g_joined G
             ∨ (g_phase G = SuspendedStart ∧ e = Next g
                ∧ g_joined G' = Some (length (w_produced w))))
          ∧ (g_phase G = Completed → G' = G)) as Hsame.
  { intros ->. exists G. split; [done|]. split; [apply gen_step_refl|].
    by split; [left|]. }
  destruct e as [signal|g0|g0|g0|v| |s]; simpl in Hstep.
  - injection Hstep as <-. exists G. simpl.
    split; [apply lookup_app_l_Some; done|].
    split; [apply gen_step_refl|]. by split; [left|].
  - unfold next in Hstep.
    destruct (w_generators w !! g0) as [G0|] eqn:HG0; [|done]. simpl in Hstep.
    destruct (g_phase G0) eqn:Hph; try done.
    + apply loop_turn_shape in Hstep as (G' & Hgens & Hgs & Hj & _).
      apply (Hslot g0 G0 G'); try done; [by right|congruence].
    + apply loop_turn_shape in Hstep as (G' & Hgens & Hgs & Hj & _).
      apply (Hslot g0 G0 G'); try done; [by left|congruence].
    + injection Hstep as <-. by apply Hsame.
  - unfold return_ in Hstep.
    destruct (w_generators w !! g0) as [G0|] eqn:HG0; [|done]. simpl in Hstep.
    destruct (g_phase G0) eqn:Hph; try done; injection Hstep as <-.
    + apply (Hslot g0 G0 (set_phase Completed G0)); try done;
        [split; [done|by left]|by left|congruence].
    + apply (Hslot g0 G0 (set_phase Completed G0)); try done;
        [split; [done|by left]|by left|congruence].
    + by apply Hsame.
  - unfold settle in Hstep.
    destruct (w_generators w !! g0) as [G0|] eqn:HG0; [|done]. simpl in Hstep.
    destruct (g_phase G0) eqn:Hph; try done.
    destruct (_ || _); [|done].
    apply after_await_shape in Hstep as (G' & Hgens & Hgs & Hj & _).
    apply (Hslot g0 G0 G'); try done; [by left|congruence].
  - unfold produce in Hstep. destruct (w_pushing w); [|done].
    injection Hstep as <-. by apply Hsame.
  - unfold finish_upstream in Hstep. destruct (w_pushing w); [|done].
    injection Hstep as <-. by apply Hsame.
  - injection Hstep as <-. by apply Hsame.
Qed.

(** Only its own events change a generator object. *)
Lemma step_other_generator (e : event) w w' (g : nat) G :
  resumed e ≠ Some g → step e w = Some w' → w_generators w !! g = Some G →
  w_generators w' !! g = Some G.
Proof.
  intros Hne Hstep HG.
  assert (∀ g0 G0', g0 ≠ g →
    w_generators w' = <[g0 := G0']> (w_generators w) →
    w_generators w' !! g = Some G) as Hslot.
  { intros g0 G0' Hg0 ->. by rewrite list_lookup_insert_ne. }
  destruct e as [signal|g0|g0|g0|v| |s]; simpl in Hstep, Hne.
  - injection Hstep as <-. simpl. by apply lookup_app_l_Some.
  - unfold next in Hstep.
    destruct (w_generators w !! g0) as [G0|]; [|done]. simpl in Hstep.
    destruct (g_phase G0); try done.
    + apply loop_turn_shape in Hstep as (G' & Hgens & _).
      apply (Hslot g0 G'); [congruence|done].
    + apply loop_turn_shape in Hstep as (G' & Hgens & _).
      apply (Hslot g0 G'); [congruence|done].
    + by injection Hstep as <-.
  - unfold return_ in Hstep.
    destruct (w_generators w !! g0) as [G0|]; [|done]. simpl in Hstep.
    destruct (g_phase G0); try done; injection Hstep as <-; try done.
    + apply (Hslot g0 (set_phase Completed G0)); [congruence|done].
    + apply (Hslot g0 (set_phase Completed G0)); [congruence|done].
  - unfold settle in Hstep.
    destruct (w_generators w !! g0) as [G0|]; [|done]. simpl in Hstep.
    destruct (g_phase G0); try done. destruct (_ || _); [|done].
    apply after_await_shape in Hstep as (G' & Hgens & _).
    apply (Hslot g0 G'); [congruence|done].
  - unfold produce in Hstep. destruct (w_pushing w); [|done].
    by injection Hstep as <-.
  - unfold finish_upstream in Hstep. destruct (w_pushing w); [|done].
    by injection Hstep as <-.
  - by injection Hstep as <-.
Qed.

End shape.

(** ** Runs *)

Section runs.
Context {T : Type}.
Implicit Types (w : World (T:=T)) (G : Generator (T:=T)).

Lemma run_app (es1 es2 : list event) w :
  run (es1 ++ es2) w = run es1 w ≫= run es2.
Proof.
  revert w. induction es1 as [|e es1 IH]; intros w; simpl; [done|].
  destruct (step e w) as [w1|]; simpl; [apply IH|done].
Qed.

Lemma reachable_run (es : list event) w w' :
  reachable w → run es w = Some w' → reachable w'.
Proof.
  intros (has_iterable & es0 & Hrun0) Hrun.
  exists has_iterable, (es0 ++ es). by rewrite run_app, Hrun0.
Qed.

Lemma reachable_step (e : event) w w' :
  reachable w → step e w = Some w' → reachable w'.
Proof.
  intros Hw Hstep. apply (reachable_run [e] w); [done|].
  simpl. by rewrite Hstep.
Qed.

Lemma signal_aborted_mono w w' G G' :
  w_aborted w ⊆ w_aborted w' → g_signal G' = g_signal G →
  signal_aborted w G = true → signal_aborted w' G' = true.
Proof.
  unfold signal_aborted. intros Hsub ->. destruct (g_signal G) as [s|]; [|done].
  rewrite !bool_decide_eq_true. apply Hsub.
Qed.

Lemma run_histories (es : list event) w w' :
  run es w = Some w' →
  (∃ later, w_produced w' = w_produced w ++ later
            ∧ (w_pushing w = false → later = []))
  ∧ w_aborted w ⊆ w_aborted w'
  ∧ (w_pushing w = false → w_pushing w' = false).
Proof.
  revert w. induction es as [|e es IH]; intros w; simpl.
  - intros [= <-]. split; [|done]. exists []. by rewrite app_nil_r.
  - destruct (step e w) as [w1|] eqn:Hstep; [|done]. simpl. intros Hrun.
    destruct (step_histories e w w1 Hstep) as (Hpr & Hab & Hpush & _).
    destruct (IH w1 Hrun) as ((later & Hlater & Hnil) & Hab' & Hpush').
    split; [|split].
    + exists (appended e ++ later). split.
      * by rewrite Hlater, Hpr, (assoc_L (++)).
      * intros Hoff. destruct (Hpush Hoff) as [Hoff1 ->].
        by rewrite (Hnil Hoff1).
    + by etrans.
    + intros Hoff. destruct (Hpush Hoff) as [Hoff1 _]. by apply Hpush'.
Qed.

(** A generator object across a run: the join point, once set, stays; a
    completed generator stays as it is; once the signal has fired the log
    stays as it is. *)
Lemma run_generator (es : list event) w w' (g : nat) G :
  Inv w → run es w = Some w' → w_generators w !! g = Some G →
  ∃ G', w_generators w' !! g = Some G'
        ∧ g_signal G' = g_signal G
        ∧ g_log G `prefix_of` g_log G'
        ∧ (∀ N, g_joined G = Some N → g_joined G' = Some N)
        ∧ (signal_aborted w G = true → g_log G' = g_log G)
        ∧ (g_phase G = Completed → G' = G).
Proof.
  revert w G. induction es as [|e es IH]; intros w G HInv; simpl.
  - intros [= <-] HG. exists G. by repeat split.
  - destruct (step e w) as [w1|] eqn:Hstep; [|done]. simpl. intros Hrun HG.
    destruct (step_generator e w w1 g G Hstep HG)
      as (G1 & HG1 & [Hsig Hlog] & Hjoin & Hdone).
    destruct (step_histories e w w1 Hstep) as (_ & Hab & _).
    destruct (IH w1 G1 (Inv_step e w w1 HInv Hstep) Hrun HG1)
      as (G' & HG' & Hsig' & Hpre' & Hjoin' & Hlog' & Hdone').
    exists G'. split; [done|]. split; [congruence|]. split; [|split; [|split]].
    + etrans; [|done].
      destruct Hlog as [->|(_ & v & ->)]; [done|by apply prefix_app_r].
    + intros N HN. apply Hjoin'. destruct Hjoin as [->|(Hph & _ & _)]; [done|].
      destruct HInv as (_ & Hgens & _). specialize (Hgens g G HG).
      unfold gen_ok in Hgens. rewrite Hph in Hgens. destruct Hgens. congruence.
    + intros Hfired. rewrite Hlog'.
      * destruct Hlog as [->|(Hno & _)]; [done|congruence].
      * by apply (signal_aborted_mono w w1 G G1).
    + intros Hph. specialize (Hdone Hph). subst G1. by apply Hdone'.
Qed.

(** What the invariant says about the log of a generator that has joined. *)
Lemma log_since_join w (g : nat) G (N : nat) :
  Inv w → w_generators w !! g = Some G → g_joined G = Some N →
  (N ≤ length (w_produced w))%nat
  ∧ g_log G `prefix_of` (Some <$> drop N (w_produced w))
  ∧ (∀ id, phase_id (g_phase G) = Some id →
       ∃ c, _indices (w_this w) !! id = Some c
            ∧ 0 ≤ c ≤ len (_buffer (w_this w))
            ∧ Some <$> drop N (w_produced w) =
              g_log G ++ (Some <$> drop (Z.to_nat c) (_buffer (w_this w)))).
Proof.
  intros ((Hcur & _) & Hgens & _) HG HN. specialize (Hgens g G HG).
  assert (∀ id, phase_id (g_phase G) = Some id →
    (N ≤ length (w_produced w))%nat
    ∧ ∃ c, _indices (w_this w) !! id = Some c
           ∧ 0 ≤ c ≤ len (_buffer (w_this w))
           ∧ Some <$> drop N (w_produced w) =
             g_log G ++ (Some <$> drop (Z.to_nat c) (_buffer (w_this w))))
    as Hreg.
  { intros id Hid.
    destruct (gen_ok_registered _ _ _ _ _ Hgens Hid)
      as (N' & c & HN' & Hc & HNle & Htr).
    assert (N' = N) as -> by congruence. split; [done|].
    exists c. split; [done|]. split; [by apply (Hcur id)|done]. }
  unfold gen_ok in Hgens. destruct (g_phase G) as [|id p|id|] eqn:Hph.
  - destruct Hgens. congruence.
  - destruct (Hreg id eq_refl) as (HNle & c & Hc & Hrange & Htr).
    split; [done|]. split; [rewrite Htr; by apply prefix_app_r|].
    intros id' [= <-]. by exists c.
  - destruct (Hreg id eq_refl) as (HNle & c & Hc & Hrange & Htr).
    split; [done|]. split; [rewrite Htr; by apply prefix_app_r|].
    intros id' [= <-]. by exists c.
  - rewrite HN in Hgens. destruct Hgens. by repeat split.
Qed.

(** The first pull of a generator object: the body runs from its start. *)
Lemma first_next w w' (g : nat) G :
  Inv w → w_generators w !! g = Some G → g_phase G = SuspendedStart →
  next g w = Some w' →
  ∃ G', w_generators w' !! g = Some G'
        ∧ g_joined G' = Some (length (w_produced w))
        ∧ w_produced w' = w_produced w.
Proof.
  intros HInv HG Hph Hnext. unfold next in Hnext. rewrite HG in Hnext.
  simpl in Hnext. rewrite Hph in Hnext.
  apply loop_turn_shape in Hnext as (G' & Hgens & _ & Hj & _ & Hpr & _).
  exists G'. rewrite Hgens. split; [|done].
  apply list_lookup_insert_eq. simpl. by eapply lookup_lt_Some.
Qed.

(** A listener whose body starts in [w] only ever yields values produced
    after [w]. *)
Lemma log_after_first_next (es : list event) w w1 w2 (g : nat) G :
  reachable w → w_generators w !! g = Some G → g_phase G = SuspendedStart →
  next g w = Some w1 → run es w1 = Some w2 →
  ∃ later G2, w_produced w2 = w_produced w ++ later
              ∧ w_generators w2 !! g = Some G2
              ∧ g_joined G2 = Some (length (w_produced w))
              ∧ g_log G2 `prefix_of` (Some <$> later)
              ∧ (∀ id, phase_id (g_phase G2) = Some id →
                   ∃ c, _indices (w_this w2) !! id = Some c
                        ∧ 0 ≤ c ≤ len (_buffer (w_this w2))
                        ∧ Some <$> later =
                          g_log G2
                          ++ (Some <$> drop (Z.to_nat c) (_buffer (w_this w2)))).
Proof.
  intros Hw HG Hph Hnext Hrun. pose proof (Inv_reachable w Hw) as HInv.
  assert (Inv w1) as HInv1 by (by apply (Inv_step (Next g) w)).
  destruct (first_next w w1 g G HInv HG Hph Hnext) as (G1 & HG1 & Hj1 & Hpr1).
  destruct (run_generator es w1 w2 g G1 HInv1 Hrun HG1)
    as (G2 & HG2 & _ & _ & Hj2 & _).
  destruct (run_histories es w1 w2 Hrun) as ((later & Hlater & _) & _).
  rewrite Hpr1 in Hlater. exists later, G2.
  split; [done|]. split; [done|]. split; [by apply Hj2|].
  destruct (log_since_join w2 g G2 _ (Inv_run es w1 w2 HInv1 Hrun) HG2
              (Hj2 _ Hj1)) as (_ & Hpre & Hreg).
  rewrite Hlater, drop_app_length in Hpre, Hreg. by split.
Qed.

End runs.

(** ** Listeners and what they observe *)

Section listeners.
Context {T : Type}.
Implicit Types (w : World (T:=T)) (G : Generator (T:=T)).

(** The first pull of a generator whose signal has not fired: the body
    allocates the identity, registers the cursor at the end of the buffer and
    waits there. *)
Lemma first_next_waits w (g : nat) G :
  w_generators w !! g = Some G → g_phase G = SuspendedStart →
  signal_aborted w G = false →
  ∃ w1 G1 p,
    next g w = Some w1
    ∧ w_generators w1 !! g = Some G1
    ∧ g_phase G1 = Awaiting (_nextGeneratorID (w_this w)) p
    ∧ g_log G1 = g_log G
    ∧ _buffer (w_this w1) = _buffer (w_this w)
    ∧ _indices (w_this w1) =
      <[_nextGeneratorID (w_this w) := len (_buffer (w_this w))]>
        (_indices (w_this w)).
Proof.
  intros HG Hph Hno. unfold next. rewrite HG. simpl. rewrite Hph.
  unfold loop_turn.
  assert (signal_aborted (set_this (register (w_this w)) w)
            {| g_signal := g_signal G; g_phase := SuspendedStart;
               g_joined := Some (length (w_produced w));
               g_log := g_log G |} = false) as -> by done.
  simpl. rewrite lookup_insert_eq. simpl. rewrite Z.eqb_refl.
  assert (g < length (w_generators w))%nat as Hlt by (by eapply lookup_lt_Some).
  unfold wait. simpl. destruct (_nextValue (w_this w)) as [p|]; simpl.
  - eexists _, _, p. split; [done|]. simpl.
    split; [by apply list_lookup_insert_eq|]. done.
  - eexists _, _, (length (w_promises w)). split; [done|]. simpl.
    split; [by apply list_lookup_insert_eq|]. done.
Qed.

(** *** C3 *)

(** C3: a listener whose iteration begins when [N] values have been produced
    gets the current length of the buffer as its cursor, and whatever it has
    observed at any later moment is a prefix of the values produced after
    those [N]. *)
Theorem late_listener_observes_later_values w w1 (g : nat) G :
  reachable w →
  w_generators w !! g = Some G → g_phase G = SuspendedStart →
  next g w = Some w1 →
  (signal_aborted w G = false →
     ∃ G1 p, w_generators w1 !! g = Some G1
             ∧ g_phase G1 = Awaiting (_nextGeneratorID (w_this w)) p
             ∧ _indices (w_this w1) !! _nextGeneratorID (w_this w)
               = Some (len (_buffer (w_this w)))
             ∧ _buffer (w_this w1) = _buffer (w_this w))
  ∧ (∀ es w2, run es w1 = Some w2 →
       ∃ later G2,
         w_produced w2 = w_produced w ++ later
         ∧ w_generators w2 !! g = Some G2
         ∧ g_log G2 `prefix_of` (Some <$> later)
         ∧ (∀ id, phase_id (g_phase G2) = Some id →
              ∃ c, _indices (w_this w2) !! id = Some c
                   ∧ Some <$> later =
                     g_log G2
                     ++ (Some <$> drop (Z.to_nat c) (_buffer (w_this w2))))).
Proof.
  intros Hw HG Hph Hnext. split.
  - intros Hno.
    destruct (first_next_waits w g G HG Hph Hno)
      as (w1' & G1 & p & Hnext' & HG1 & Hph1 & _ & Hbuf & Hix).
    assert (w1' = w1) as -> by congruence.
    exists G1, p. split; [done|]. split; [done|]. split; [|done].
    rewrite Hix. apply lookup_insert_eq.
  - intros es w2 Hrun.
    destruct (log_after_first_next es w w1 w2 g G Hw HG Hph Hnext Hrun)
      as (later & G2 & Hlater & HG2 & _ & Hpre & Hreg).
    exists later, G2. split; [done|]. split; [done|]. split; [done|].
    intros id Hid. destruct (Hreg id Hid) as (c & Hc & _ & Htr). by exists c.
Qed.

(** *** C9 *)

(** C9: when the signal has already fired at the first pull, the sequence
    ends at once without a value, the identity allocated at the start is no
    longer in the registry, and the generator stays completed and silent. *)
Theorem aborted_before_start w (g : nat) G :
  reachable w →
  w_generators w !! g = Some G → g_phase G = SuspendedStart →
  signal_aborted w G = true →
  ∃ w' G',
    step (Next g) w = Some w'
    ∧ w_generators w' !! g = Some G'
    ∧ g_phase G' = Completed
    ∧ g_log G' = []
    ∧ w_this w' = _cleanup (_nextGeneratorID (w_this w)) (register (w_this w))
    ∧ _indices (w_this w') !! _nextGeneratorID (w_this w) = None
    ∧ (∀ es w2, run es w' = Some w2 → w_generators w2 !! g = Some G').
Proof.
  intros Hw HG Hph Hab. pose proof (Inv_reachable w Hw) as HInv.
  assert (g_log G = []) as Hlog.
  { destruct HInv as (_ & Hgens & _). specialize (Hgens g G HG).
    unfold gen_ok in Hgens. rewrite Hph in Hgens. by destruct Hgens. }
  assert (step (Next g) w = Some
    (finish g
       {| g_signal := g_signal G; g_phase := g_phase G;
          g_joined := Some (length (w_produced w)); g_log := g_log G |}
       (_nextGeneratorID (w_this w)) (set_this (register (w_this w)) w)))
    as Hstep.
  { simpl. unfold next. rewrite HG. simpl. rewrite Hph. unfold loop_turn.
    assert (signal_aborted (set_this (register (w_this w)) w)
              {| g_signal := g_signal G; g_phase := SuspendedStart;
                 g_joined := Some (length (w_produced w));
                 g_log := g_log G |} = true) as -> by done.
    done. }
  set (G0 := {| g_signal := g_signal G; g_phase := g_phase G;
                g_joined := Some (length (w_produced w));
                g_log := g_log G |}) in *.
  set (w' := finish g G0 _ _) in *.
  assert (w_generators w' !! g = Some (set_phase Completed G0)) as HG'.
  { simpl. apply list_lookup_insert_eq. by eapply lookup_lt_Some. }
  exists w', (set_phase Completed G0). split; [done|]. split; [done|].
  split; [done|]. split; [done|]. split; [done|]. split.
  - apply trim_lookup_None. simpl. apply lookup_delete_eq.
  - intros es w2 Hrun.
    pose proof (Inv_step _ _ _ HInv Hstep) as HInv'.
    destruct (run_generator es w' w2 g _ HInv' Hrun HG')
      as (G2 & HG2 & _ & _ & _ & _ & Hdone).
    by rewrite <- (Hdone eq_refl).
Qed.

(** *** C10 *)

(** C10: obtaining a sequence changes nothing in the broadcaster; the new
    generator object has no identity and no cursor, and stays so whatever
    else happens, until it is pulled for the first time; what it observes
    afterwards is a prefix of the values produced after that first pull, so
    none of the values produced in between. *)
Theorem accessor_registers_nothing (signal : option nat) w :
  reachable w →
  let g := length (w_generators w) in
  let G := {| g_signal := signal; g_phase := SuspendedStart;
              g_joined := None; g_log := [] |} in
  step (Values signal) w = Some (call_values signal w)
  ∧ w_this (call_values signal w) = w_this w
  ∧ w_generators (call_values signal w) !! g = Some G
  ∧ phase_id (g_phase G) = None
  ∧ (∀ es1 w2, run es1 (call_values signal w) = Some w2 →
       Forall (λ e, resumed e ≠ Some g) es1 →
       w_generators w2 !! g = Some G
       ∧ ∃ between, w_produced w2 = w_produced w ++ between
         ∧ ∀ w3 es2 w4, next g w2 = Some w3 → run es2 w3 = Some w4 →
           ∃ later G4, w_produced w4 = w_produced w ++ between ++ later
                       ∧ w_generators w4 !! g = Some G4
                       ∧ g_log G4 `prefix_of` (Some <$> later)).
Proof.
  intros Hw g G. split; [done|]. split; [done|].
  assert (w_generators (call_values signal w) !! g = Some G) as HG.
  { simpl. by rewrite lookup_app_r, Nat.sub_diag. }
  split; [done|]. split; [done|].
  intros es1 w2 Hrun1 Hother.
  assert (w_generators w2 !! g = Some G) as HG2.
  { clear Hw. revert Hrun1 HG. generalize (call_values signal w).
    induction Hother as [|e es1 He _ IH]; intros w0; simpl.
    - by intros [= <-].
    - destruct (step e w0) as [w0'|] eqn:Hstep; [|done]. simpl.
      intros Hrun HG. apply (IH w0' Hrun).
      by apply (step_other_generator e w0). }
  split; [done|].
  destruct (run_histories es1 _ w2 Hrun1) as ((between & Hbetween & _) & _).
  exists between. split; [done|]. intros w3 es2 w4 Hnext Hrun2.
  assert (reachable w2) as Hw2.
  { apply (reachable_run es1 (call_values signal w)); [|done].
    by apply (reachable_step (Values signal) w). }
  destruct (log_after_first_next es2 w2 w3 w4 g G Hw2 HG2 eq_refl Hnext Hrun2)
    as (later & G4 & Hlater & HG4 & _ & Hpre & _).
  exists later, G4. split; [|done].
  rewrite Hlater, Hbetween. simpl. by rewrite (assoc_L (++)).
Qed.

End listeners.

(** ** Cursors *)

Section cursors.
Context {T : Type}.
Implicit Types (w : World (T:=T)) (G : Generator (T:=T)).
Implicit Types b : AsyncBroadcaster (T:=T).

Lemma moved_same b b' :
  _buffer b' = _buffer b → _indices b' = _indices b → moved 0 [] b b'.
Proof.
  intros Hbuf Hix. unfold moved. rewrite app_nil_r, Hbuf, Hix.
  split; [unfold len; lia|]. split; [done|].
  intros id c c' Hc Hc'. left. assert (c' = c) by congruence. lia.
Qed.

(** A trim after a change of the registry that moved cursors by at most one. *)
Lemma trim_moved b b1 :
  cursors_ok b1 → _buffer b1 = _buffer b →
  (∀ id c c1, _indices b !! id = Some c → _indices b1 !! id = Some c1 →
              c1 = c ∨ c1 = c + 1) →
  ∃ k, moved k [] b (_trim b1).
Proof.
  intros Hok Hbuf Hix. destruct (trim_shift b1 Hok) as [k Hk].
  destruct Hk as (Hrange & _ & Hbuf' & Hix' & _).
  exists k. unfold moved. rewrite app_nil_r, <- Hbuf.
  split; [done|]. split; [done|].
  intros id c c' Hc. rewrite Hix', lookup_fmap.
  destruct (_indices b1 !! id) as [c1|] eqn:Hc1; [|done]. intros [= <-].
  destruct (Hix id c c1 Hc Hc1) as [->| ->]; [by left|by right].
Qed.

Lemma finish_moved w (g id : nat) G :
  Inv w → ∃ k, moved k [] (w_this w) (w_this (finish g G id w)).
Proof.
  intros ((Hcur & _) & _). simpl. unfold _cleanup. apply trim_moved.
  - intros i n. simpl. intros [_ Hi]%lookup_delete_Some. by apply (Hcur i).
  - done.
  - intros i c c1 Hc. simpl. intros [_ Hc1]%lookup_delete_Some.
    left. congruence.
Qed.

Lemma deliver_moved w (g id : nat) G (index : Z) :
  Inv w → _indices (w_this w) !! id = Some index →
  index < len (_buffer (w_this w)) →
  ∃ k, moved k [] (w_this w) (w_this (deliver g G id index w)).
Proof.
  intros ((Hcur & _) & _) Hindex Hlt. simpl. unfold advance.
  apply trim_moved.
  - intros i n. simpl. intros [[<- <-]|[_ Hi]]%lookup_insert_Some.
    + specialize (Hcur _ _ Hindex). lia.
    + by apply (Hcur i).
  - done.
  - intros i c c1 Hc. simpl. intros [[<- <-]|[_ Hi]]%lookup_insert_Some.
    + right. congruence.
    + left. congruence.
Qed.

Lemma wait_moved w (g id : nat) G :
  moved 0 [] (w_this w) (w_this (wait g G id w)).
Proof.
  apply moved_same; unfold wait; by destruct (_nextValue (w_this w)).
Qed.

Lemma loop_turn_moved w w' (g id : nat) G :
  Inv w → loop_turn g G id w = Some w' →
  ∃ k, moved k [] (w_this w) (w_this w').
Proof.
  intros HInv. unfold loop_turn. destruct (signal_aborted w G).
  { intros [= <-]. by apply finish_moved. }
  destruct (_indices (w_this w) !! id) as [index|] eqn:Hindex; [|done]. simpl.
  destruct (index =? _) eqn:Hend; intros [= <-].
  - exists 0. apply wait_moved.
  - apply deliver_moved; try done. apply Z.eqb_neq in Hend.
    destruct HInv as ((Hcur & _) & _). specialize (Hcur id index Hindex). lia.
Qed.

(** A resolved promise means an unread value (the fact behind line 76). *)
Lemma woken_cursor_in_bounds w (g id p : nat) G :
  Inv w → w_generators w !! g = Some G → g_phase G = Awaiting id p →
  promise_resolved w p = true →
  ∃ N c, g_joined G = Some N
         ∧ _indices (w_this w) !! id = Some c
         ∧ 0 ≤ c < len (_buffer (w_this w))
         ∧ trace_ok (w_produced w) (_buffer (w_this w)) N c (g_log G).
Proof.
  intros ((Hcur & _ & _ & Hpend) & Hgens & _) HG Hph Hres.
  specialize (Hgens g G HG). unfold gen_ok in Hgens. rewrite Hph in Hgens.
  destruct Hgens as (N & c & HN & Hc & Htr & [[_ Hlt]|Hnext]).
  - exists N, c. specialize (Hcur id c Hc).
    split; [done|]. split; [done|]. split; [lia|done].
  - unfold promise_resolved in Hres. by rewrite (Hpend p Hnext) in Hres.
Qed.

Lemma after_await_moved w w' (g id p : nat) G :
  Inv w → w_generators w !! g = Some G → g_phase G = Awaiting id p →
  promise_resolved w p || signal_aborted w G = true →
  after_await g G id w = Some w' →
  ∃ k, moved k [] (w_this w) (w_this w').
Proof.
  intros HInv HG Hph Hready. unfold after_await.
  destruct (signal_aborted w G).
  { intros [= <-]. rewrite finish_cleanup. by apply finish_moved. }
  rewrite orb_false_r in Hready.
  destruct (woken_cursor_in_bounds w g id p G HInv HG Hph Hready)
    as (N & c & _ & Hc & Hrange & _).
  rewrite Hc. simpl. intros [= <-]. apply deliver_moved; [done|done|lia].
Qed.

(** *** C6 *)

(** C6: in every state the program reaches, every registered cursor lies
    between 0 and the length of the buffer; and every step trims some number
    [k] of values off the front of the buffer (after appending, when it is an
    append), and a cursor registered before and after the step either stays
    or advances by one, apart from the rebase by that same [k]. *)
Theorem cursors_bounded_and_monotone w :
  reachable w →
  (∀ id c, _indices (w_this w) !! id = Some c →
           0 ≤ c ≤ len (_buffer (w_this w)))
  ∧ (∀ e w', step e w = Some w' →
       ∃ k, 0 ≤ k ≤ len (_buffer (w_this w) ++ appended e)
            ∧ _buffer (w_this w') =
              drop (Z.to_nat k) (_buffer (w_this w) ++ appended e)
            ∧ ∀ id c c', _indices (w_this w) !! id = Some c →
                         _indices (w_this w') !! id = Some c' →
                         c' = c - k ∨ c' = c + 1 - k).
Proof.
  intros Hw. pose proof (Inv_reachable w Hw) as HInv.
  split; [apply HInv|]. intros e w' Hstep.
  change (∃ k, moved k (appended e) (w_this w) (w_this w')).
  destruct e as [signal|g|g|g|v| |s]; simpl in Hstep.
  - injection Hstep as <-. exists 0. by apply moved_same.
  - unfold next in Hstep.
    destruct (w_generators w !! g) as [G|] eqn:HG; [|done]. simpl in Hstep.
    destruct (g_phase G) as [|id p|id|] eqn:Hph; [|done| |].
    + pose proof HInv as ((Hcur & Hids & _) & _).
      assert (_indices (w_this w) !! _nextGeneratorID (w_this w) = None)
        as Hfresh.
      { apply eq_None_not_Some. intros Hi%Hids. lia. }
      unfold loop_turn in Hstep. simpl in Hstep.
      destruct (signal_aborted _ _); [injection Hstep as <-|].
      * simpl. unfold _cleanup. apply trim_moved; [|done|].
        -- intros i n. simpl. rewrite delete_insert_eq.
           intros [_ Hi]%lookup_delete_Some. by apply (Hcur i).
        -- intros i c c1 Hc. simpl. rewrite delete_insert_eq.
           intros [_ Hi]%lookup_delete_Some. left. congruence.
      * rewrite lookup_insert_eq in Hstep. simpl in Hstep.
        rewrite Z.eqb_refl in Hstep. injection Hstep as <-.
        exists 0. unfold moved. rewrite app_nil_r.
        split; [unfold len; lia|].
        split; [unfold wait; simpl; by destruct (_nextValue (w_this w))|].
        intros i c c' Hc Hc'. left.
        assert (_indices (w_this (wait g
                  {| g_signal := g_signal G; g_phase := SuspendedStart;
                     g_joined := Some (length (w_produced w));
                     g_log := g_log G |}
                  (_nextGeneratorID (w_this w))
                  (set_this (register (w_this w)) w)))
                = <[_nextGeneratorID (w_this w) := len (_buffer (w_this w))]>
                    (_indices (w_this w))) as Hix.
        { unfold wait. simpl. by destruct (_nextValue (w_this w)). }
        rewrite Hix, lookup_insert_ne in Hc' by congruence.
        assert (c' = c) by congruence. lia.
    + by apply (loop_turn_moved w w' g id G).
    + injection Hstep as <-. exists 0. by apply moved_same.
  - unfold return_ in Hstep.
    destruct (w_generators w !! g) as [G|] eqn:HG; [|done]. simpl in Hstep.
    destruct (g_phase G) as [|id p|id|] eqn:Hph; [|done| |];
      injection Hstep as <-.
    + exists 0. by apply moved_same.
    + by apply finish_moved.
    + exists 0. by apply moved_same.
  - unfold settle in Hstep.
    destruct (w_generators w !! g) as [G|] eqn:HG; [|done]. simpl in Hstep.
    destruct (g_phase G) as [|id p|id|] eqn:Hph; try done.
    destruct (promise_resolved w p || signal_aborted w G) eqn:Hready; [|done].
    by apply (after_await_moved w w' g id p G).
  - unfold produce in Hstep. destruct (w_pushing w); [|done].
    injection Hstep as <-. exists 0. unfold moved. simpl.
    split; [unfold len; lia|]. split; [done|].
    intros id c c' Hc Hc'. left. assert (c' = c) by congruence. lia.
  - unfold finish_upstream in Hstep. destruct (w_pushing w); [|done].
    injection Hstep as <-. exists 0. by apply moved_same.
  - injection Hstep as <-. exists 0. by apply moved_same.
Qed.

End cursors.

(** ** Termination of a listener *)

Section termination.
Context {T : Type}.
Implicit Types (w : World (T:=T)) (G : Generator (T:=T)).

Lemma loop_turn_promises w w' (g id : nat) G :
  loop_turn g G id w = Some w' →
  w_promises w' = w_promises w ∨ w_promises w' = w_promises w ++ [false].
Proof.
  unfold loop_turn. destruct (signal_aborted w G); [intros [= <-]; by left|].
  destruct (_indices (w_this w) !! id) as [index|]; [|done]. simpl.
  destruct (index =? _); intros [= <-]; [|by left].
  unfold wait. destruct (_nextValue (w_this w)); [by left|by right].
Qed.

Lemma after_await_promises w w' (g id : nat) G :
  after_await g G id w = Some w' → w_promises w' = w_promises w.
Proof.
  unfold after_await. destruct (signal_aborted w G); [by intros [= <-]|].
  destruct (_indices (w_this w) !! id) as [index|]; [|done]. simpl.
  by intros [= <-].
Qed.

(** Once [_pushAll] has ended, no promise is resolved any more. *)
Lemma step_unresolved (e : event) w w' (p : nat) :
  w_pushing w = false → step e w = Some w' →
  promise_resolved w p = false → promise_resolved w' p = false.
Proof.
  intros Hoff Hstep Hp.
  assert (w_promises w' = w_promises w ∨ w_promises w' = w_promises w ++ [false]
          → promise_resolved w' p = false) as Hgrow.
  { unfold promise_resolved in *. intros [->| ->]; [done|].
    destruct (decide (p < length (w_promises w))%nat).
    - by rewrite lookup_app_l.
    - rewrite lookup_app_r by lia.
      by destruct (p - length (w_promises w))%nat. }
  destruct e as [signal|g|g|g|v| |s]; simpl in Hstep.
  - injection Hstep as <-. apply Hgrow. by left.
  - unfold next in Hstep.
    destruct (w_generators w !! g) as [G|]; [|done]. simpl in Hstep.
    destruct (g_phase G); try done.
    + by apply loop_turn_promises in Hstep; apply Hgrow.
    + by apply loop_turn_promises in Hstep; apply Hgrow.
    + by injection Hstep as <-.
  - unfold return_ in Hstep.
    destruct (w_generators w !! g) as [G|]; [|done]. simpl in Hstep.
    destruct (g_phase G); try done; injection Hstep as <-;
      apply Hgrow; by left.
  - unfold settle in Hstep.
    destruct (w_generators w !! g) as [G|]; [|done]. simpl in Hstep.
    destruct (g_phase G); try done. destruct (_ || _); [|done].
    apply after_await_promises in Hstep. apply Hgrow. by left.
  - unfold produce in Hstep. by rewrite Hoff in Hstep.
  - unfold finish_upstream in Hstep. by rewrite Hoff in Hstep.
  - injection Hstep as <-. apply Hgrow. by left.
Qed.

(** A listener that waits for an unresolved promise after [_pushAll] has
    ended stays where it is for as long as its signal does not fire. *)
Lemma waits_forever (es : list event) w w' (g id p : nat) G :
  w_pushing w = false →
  w_generators w !! g = Some G → g_phase G = Awaiting id p →
  promise_resolved w p = false →
  run es w = Some w' → signal_aborted w' G = false →
  w_generators w' !! g = Some G ∧ promise_resolved w' p = false.
Proof.
  revert w. induction es as [|e es IH]; intros w Hoff HG Hph Hp; simpl.
  - by intros [= <-].
  - destruct (step e w) as [w1|] eqn:Hstep; [|done]. simpl. intros Hrun Hno.
    destruct (step_histories e w w1 Hstep) as (_ & Hab & Hoff1 & _).
    destruct (run_histories es w1 w' Hrun) as (_ & Hab' & _).
    assert (signal_aborted w G = false) as Hno0.
    { destruct (signal_aborted w G) eqn:Hyes; [|done].
      rewrite <- Hno. symmetry.
      apply (signal_aborted_mono w w' G G); [by etrans|done|done]. }
    apply (IH w1); try done.
    + by apply Hoff1.
    + apply (step_other_generator e w); [|done|done].
      intros Hme. destruct e as [signal|g0|g0|g0|v| |s]; simpl in Hme;
        try done; injection Hme as ->; simpl in Hstep.
      * unfold next in Hstep. rewrite HG in Hstep. simpl in Hstep.
        by rewrite Hph in Hstep.
      * unfold return_ in Hstep. rewrite HG in Hstep. simpl in Hstep.
        by rewrite Hph in Hstep.
      * unfold settle in Hstep. rewrite HG in Hstep. simpl in Hstep.
        by rewrite Hph, Hp, Hno0 in Hstep.
    + by apply (step_unresolved e w).
Qed.

(** *** C4 *)

(** C4, as amended: after the upstream source is exhausted, a pull of a
    listener that has consumed the whole buffer, and whose signal has not
    fired, does not report completion: the listener starts to wait for a
    promise that is not resolved, and it stays there, without a value and
    without completion, for as long as its signal does not fire. *)
Theorem exhausted_upstream_leaves_listener_waiting w (g id : nat) G :
  reachable w → w_pushing w = false →
  w_generators w !! g = Some G → g_phase G = SuspendedYield id →
  _indices (w_this w) !! id = Some (len (_buffer (w_this w))) →
  signal_aborted w G = false →
  ∃ w1 p,
    step (Next g) w = Some w1
    ∧ w_generators w1 !! g = Some (set_phase (Awaiting id p) G)
    ∧ promise_resolved w1 p = false
    ∧ ∀ es w2, run es w1 = Some w2 → signal_aborted w2 G = false →
               w_generators w2 !! g = Some (set_phase (Awaiting id p) G)
               ∧ promise_resolved w2 p = false
               ∧ step (Settle g) w2 = None.
Proof.
  intros Hw Hoff HG Hph Hc Hno. pose proof (Inv_reachable w Hw) as HInv.
  assert (g < length (w_generators w))%nat as Hlt by (by eapply lookup_lt_Some).
  assert (step (Next g) w = Some (wait g G id w)) as Hstep.
  { simpl. unfold next. rewrite HG. simpl. rewrite Hph. unfold loop_turn.
    by rewrite Hno, Hc; simpl; rewrite Z.eqb_refl. }
  assert (∃ p, w_generators (wait g G id w) !! g
                 = Some (set_phase (Awaiting id p) G)
               ∧ promise_resolved (wait g G id w) p = false
               ∧ w_pushing (wait g G id w) = false) as (p & HG1 & Hp & Hoff1).
  { unfold wait, promise_resolved.
    destruct (_nextValue (w_this w)) as [p|] eqn:Hnext; simpl.
    - exists p. split; [by apply list_lookup_insert_eq|].
      destruct HInv as ((_ & _ & _ & Hpend) & _).
      by rewrite (Hpend p Hnext).
    - exists (length (w_promises w)).
      split; [by apply list_lookup_insert_eq|].
      by rewrite lookup_app_r, Nat.sub_diag. }
  exists (wait g G id w), p. split; [done|]. split; [done|]. split; [done|].
  intros es w2 Hrun Hno2.
  destruct (waits_forever es _ w2 g id p _ Hoff1 HG1 eq_refl Hp Hrun Hno2)
    as [HG2 Hp2].
  split; [done|]. split; [done|].
  simpl. unfold settle. rewrite HG2. simpl.
  change (signal_aborted w2 (set_phase (Awaiting id p) G))
    with (signal_aborted w2 G).
  by rewrite Hp2, Hno2.
Qed.

(** *** C8 *)


End termination.

(** ** More about [_trim] and [_cleanup] *)

Section trim_and_cleanup.
Context {T : Type}.
Implicit Types b : AsyncBroadcaster (T:=T).

Lemma trim_lookup_is_Some b (i : nat) :
  is_Some (_indices (_trim b) !! i) ↔ is_Some (_indices b !! i).
Proof.
  destruct (Math_min (map_to_list (_indices b)).*2) as [m|] eqn:Hm.
  - rewrite (trim_Fin b m Hm). destruct (0 <? m); [|done].
    simpl. by rewrite lookup_fmap, fmap_is_Some.
  - apply Math_min_Infinity, cursors_nil in Hm. by rewrite (trim_empty b Hm).
Qed.

Lemma trim_buffer_drop b : ∃ n, _buffer (_trim b) = drop n (_buffer b).
Proof.
  destruct (Math_min (map_to_list (_indices b)).*2) as [m|] eqn:Hm.
  - rewrite (trim_Fin b m Hm). destruct (0 <? m); [by eexists|by exists 0%nat].
  - apply Math_min_Infinity, cursors_nil in Hm. rewrite (trim_empty b Hm).
    exists (length (_buffer b)). simpl. by rewrite drop_all.
Qed.

Lemma trim_unread b (id : nat) (c : Z) :
  _indices b !! id = Some c →
  ∃ c', _indices (_trim b) !! id = Some c'
        ∧ c' ≤ c
        ∧ drop (Z.to_nat c') (_buffer (_trim b)) = drop (Z.to_nat c) (_buffer b).
Proof.
  intros Hc.
  destruct (Math_min (map_to_list (_indices b)).*2) as [m|] eqn:Hm.
  - rewrite (trim_Fin b m Hm). destruct (0 <? m) eqn:Hpos.
    + apply Z.ltb_lt in Hpos.
      assert (m ≤ c) as Hle.
      { apply Math_min_Fin in Hm as [_ Hle]. apply Hle, elem_of_cursors. eauto. }
      exists (c - m). simpl. rewrite lookup_fmap, Hc. split; [done|].
      split; [lia|]. rewrite drop_drop. f_equal. lia.
    + exists c. split; [done|]. split; [lia|done].
  - apply Math_min_Infinity, cursors_nil in Hm. by rewrite Hm in Hc.
Qed.

(** A listener that stands at the end of the buffer still does after a
    trim. *)
Lemma trim_caught_up b (id : nat) :
  _indices b !! id = Some (len (_buffer b)) →
  _indices (_trim b) !! id = Some (len (_buffer (_trim b))).
Proof.
  intros Hc.
  destruct (Math_min (map_to_list (_indices b)).*2) as [m|] eqn:Hm.
  - rewrite (trim_Fin b m Hm). destruct (0 <? m) eqn:Hpos; [|done].
    apply Z.ltb_lt in Hpos.
    assert (m ≤ len (_buffer b)) as Hle.
    { apply Math_min_Fin in Hm as [_ Hle]. apply Hle, elem_of_cursors. eauto. }
    simpl. rewrite lookup_fmap, Hc, len_drop by lia. done.
  - apply Math_min_Infinity, cursors_nil in Hm. by rewrite Hm in Hc.
Qed.

(** [_trim] neither adds nor removes a listener, and it keeps, for every
    listener, the values from its cursor on: what it deletes lies before
    every cursor. *)
Theorem trim_keeps_unread_values b :
  (∀ i, is_Some (_indices (_trim b) !! i) ↔ is_Some (_indices b !! i))
  ∧ (∀ id c, _indices b !! id = Some c →
       ∃ c', _indices (_trim b) !! id = Some c'
             ∧ c' ≤ c
             ∧ drop (Z.to_nat c') (_buffer (_trim b))
               = drop (Z.to_nat c) (_buffer b)).
Proof. split; [apply trim_lookup_is_Some|apply trim_unread]. Qed.

(** A second [_trim] changes nothing. *)
Theorem trim_twice b : _trim (_trim b) = _trim b.
Proof. apply trim_idemp. Qed.

(** [_cleanup] of an identity that is not registered ([Map.delete] of a
    missing key) is just [_trim]. *)
Theorem cleanup_unregistered (id : nat) b :
  _indices b !! id = None → _cleanup id b = _trim b.
Proof.
  intros Hid. unfold _cleanup. rewrite (delete_id _ _ Hid). by destruct b.
Qed.

(** The abort path runs [_cleanup] twice (lines 70 and 87); the second run
    changes nothing, and the identity is gone after the first. *)
Theorem cleanup_twice (id : nat) b :
  _indices (_cleanup id b) !! id = None
  ∧ _cleanup id (_cleanup id b) = _cleanup id b.
Proof.
  split; [|apply cleanup_idemp].
  apply trim_lookup_None. simpl. apply lookup_delete_eq.
Qed.

(** [_cleanup] keeps every other listener, with the values from its cursor
    on. *)
Theorem cleanup_keeps_other_listeners (id id' : nat) (c : Z) b :
  id' ≠ id → _indices b !! id' = Some c →
  ∃ c', _indices (_cleanup id b) !! id' = Some c'
        ∧ drop (Z.to_nat c') (_buffer (_cleanup id b))
          = drop (Z.to_nat c) (_buffer b).
Proof.
  intros Hne Hc. unfold _cleanup.
  destruct (trim_unread (set_indices (delete id (_indices b)) b) id' c)
    as (c' & Hc' & _ & Hdrop).
  { simpl. by rewrite lookup_delete_ne. }
  by exists c'.
Qed.

(** After a trim nothing is kept that every listener has read: either
    nobody listens and the buffer is empty, or some listener stands at the
    first value of the buffer. *)
Theorem trim_leaves_nothing_behind b :
  (∀ i n, _indices b !! i = Some n → 0 ≤ n) →
  (_indices (_trim b) = ∅ ∧ _buffer (_trim b) = [])
  ∨ (∃ i, _indices (_trim b) !! i = Some 0
          ∧ ∀ j n, _indices (_trim b) !! j = Some n → 0 ≤ n).
Proof.
  intros Hpos.
  destruct (Math_min (map_to_list (_indices b)).*2) as [m|] eqn:Hm.
  - right. pose proof Hm as [[i Hi]%elem_of_cursors Hle]%Math_min_Fin.
    rewrite (trim_Fin b m Hm). destruct (0 <? m) eqn:Hm0.
    + exists i. simpl. rewrite lookup_fmap, Hi. simpl.
      split; [f_equal; lia|]. intros j n. rewrite lookup_fmap.
      destruct (_indices b !! j) as [n'|] eqn:Hn'; [|done]. intros [= <-].
      assert (m ≤ n') by (apply Hle, elem_of_cursors; eauto). lia.
    + apply Z.ltb_ge in Hm0. pose proof (Hpos i m Hi) as Hm1.
      assert (m = 0) as -> by lia. exists i. split; [done|].
      intros j n Hj. by apply (Hpos j).
  - left. apply Math_min_Infinity, cursors_nil in Hm.
    by rewrite (trim_empty b Hm).
Qed.

End trim_and_cleanup.

(** ** The second invariant: waiting listeners and registry entries *)

Section second_invariant.
Context {T : Type}.
Implicit Types (w : World (T:=T)) (G : Generator (T:=T)).
Implicit Types b : AsyncBroadcaster (T:=T).

Lemma unresolved_before_app (ps : list bool) (p : nat) :
  default false ((ps ++ [false]) !! p) = false →
  default false (ps !! p) = false.
Proof.
  destruct (decide (p < length ps)%nat).
  - by rewrite lookup_app_l.
  - intros _. by rewrite lookup_ge_None_2 by lia.
Qed.

(** The second invariant after the generator object [g], which runs or is
    about to run under [id], has been replaced. *)
Lemma inv2_update w (g id : nat) G G' b' (ps' : list bool) :
  Inv w → Inv2 w →
  w_generators w !! g = Some G →
  (phase_id (g_phase G) = Some id
   ∨ (phase_id (g_phase G) = None ∧ _indices (w_this w) !! id = None)) →
  (∀ i, is_Some (_indices b' !! i) →
        (i = id ∧ phase_id (g_phase G') = Some id)
        ∨ (i ≠ id ∧ is_Some (_indices (w_this w) !! i))) →
  (∀ i, i ≠ id →
        _indices (w_this w) !! i = Some (len (_buffer (w_this w))) →
        _indices b' !! i = Some (len (_buffer b'))) →
  (∀ p, default false (ps' !! p) = false →
        default false (w_promises w !! p) = false) →
  (∀ id0 p, g_phase G' = Awaiting id0 p →
            _indices b' !! id0 = Some (len (_buffer b'))) →
  inv2 b' ps' (<[g := G']> (w_generators w)).
Proof.
  intros HInv [Hblk Hown] HG HidG Hkeys Htransfer Hps Hself.
  assert (∀ g0 G0, g0 ≠ g → w_generators w !! g0 = Some G0 →
                   phase_id (g_phase G0) ≠ Some id) as Hothers.
  { intros g0 G0 Hne HG0 Hid0. destruct HInv as (_ & Hgens & Huniq).
    destruct HidG as [HidG|[_ Hfresh]].
    - apply Hne. by apply (Huniq g0 g G0 G id).
    - destruct (gen_ok_registered _ _ _ _ _ (Hgens g0 G0 HG0) Hid0)
        as (N & c & _ & Hc & _). congruence. }
  split.
  - intros g0 G0 id0 p0
      [(<- & <- & _)|[Hne HG0]]%list_lookup_insert_Some Hph Hunres.
    + by apply (Hself id0 p0).
    + apply Htransfer.
      * intros ->. apply (Hothers g0 G0 (not_eq_sym Hne) HG0). by rewrite Hph.
      * apply (Hblk g0 G0 id0 p0); [done|done|by apply Hps].
  - intros i Hi. destruct (Hkeys i Hi) as [[-> HidG']|[Hne Hold]].
    + exists g, G'. split; [|done].
      apply list_lookup_insert_eq. by eapply lookup_lt_Some.
    + destruct (Hown i Hold) as (g0 & G0 & HG0 & Hid0). exists g0, G0.
      split; [|done]. rewrite list_lookup_insert_ne; [done|].
      intros <-. assert (G0 = G) as -> by congruence.
      destruct HidG as [HidG|[HidG _]]; congruence.
Qed.

Section world_steps2.
Context (w : World (T:=T)) (g : nat) (G : Generator (T:=T)) (id : nat).
Hypothesis HInv : Inv w.
Hypothesis HInv2 : Inv2 w.
Hypothesis HG : w_generators w !! g = Some G.
Hypothesis Hid : phase_id (g_phase G) = Some id.

Lemma Inv2_deliver (index : Z) : Inv2 (deliver g G id index w).
Proof.
  unfold Inv2, deliver, advance. simpl.
  apply (inv2_update w g id G); [done|done|done|by left| | |done|done].
  - intros i Hi. apply (proj1 (trim_lookup_is_Some _ _)) in Hi. simpl in Hi.
    apply lookup_insert_is_Some in Hi as [<-|[Hne Hi]]; [by left|by right].
  - intros i Hne Hi. apply trim_caught_up. simpl.
    by rewrite lookup_insert_ne.
Qed.

Lemma Inv2_wait :
  _indices (w_this w) !! id = Some (len (_buffer (w_this w))) →
  Inv2 (wait g G id w).
Proof.
  intros Hend. unfold Inv2, wait.
  destruct (_nextValue (w_this w)) as [p|]; simpl.
  - apply (inv2_update w g id G); [done|done|done|by left| |done|done|].
    + intros i Hi. destruct (decide (i = id)) as [->|Hne]; [by left|by right].
    + by intros id0 p0 [= <- <-].
  - apply (inv2_update w g id G);
      [done|done|done|by left| |done|apply unresolved_before_app|].
    + intros i Hi. destruct (decide (i = id)) as [->|Hne]; [by left|by right].
    + by intros id0 p0 [= <- <-].
Qed.

Lemma Inv2_finish : Inv2 (finish g G id w).
Proof.
  unfold Inv2, finish, _cleanup. simpl.
  apply (inv2_update w g id G); [done|done|done|by left| | |done|done].
  - intros i Hi. apply (proj1 (trim_lookup_is_Some _ _)) in Hi. simpl in Hi.
    apply lookup_delete_is_Some in Hi as [Hne Hi]. by right.
  - intros i Hne Hi. apply trim_caught_up. simpl.
    by rewrite lookup_delete_ne.
Qed.

End world_steps2.

Lemma Inv2_new_world (has_iterable : bool) :
  Inv2 (new_world has_iterable : World (T:=T)).
Proof.
  split.
  - by intros g G id p.
  - intros id. simpl. rewrite lookup_empty. by intros [? ?].
Qed.

Theorem Inv2_step (e : event) w w' :
  Inv w → Inv2 w → step e w = Some w' → Inv2 w'.
Proof.
  intros HInv HInv2. pose proof HInv as (Hthis & Hgens & Huniq).
  pose proof Hthis as (Hcur & Hids & Hres & Hpend).
  pose proof HInv2 as [Hblk Hown].
  assert (_indices (w_this w) !! _nextGeneratorID (w_this w) = None) as Hfresh.
  { apply eq_None_not_Some. intros Hi%Hids. lia. }
  destruct e as [signal|g|g|g|v| |s]; simpl.
  - intros [= <-]. split; simpl.
    + intros g G id p [HG|[_ HG]]%lookup_app_Some; [by apply (Hblk g)|].
      by apply list_lookup_singleton_Some in HG as [_ <-].
    + intros id Hi. destruct (Hown id Hi) as (g & G & HG & Hid).
      exists g, G. split; [by apply lookup_app_l_Some|done].
  - unfold next. destruct (w_generators w !! g) as [G|] eqn:HG; [|done].
    simpl. destruct (g_phase G) as [|id p|id|] eqn:Hph; [|done| |].
    + unfold loop_turn. simpl. destruct (signal_aborted _ _).
      * intros [= <-]. unfold Inv2, finish, _cleanup. simpl.
        apply (inv2_update w g (_nextGeneratorID (w_this w)) G);
          [done|done|done| | | |done|done].
        -- right. by rewrite Hph.
        -- intros i Hi. apply (proj1 (trim_lookup_is_Some _ _)) in Hi. simpl in Hi.
           apply lookup_delete_is_Some in Hi as [Hne Hi].
           apply lookup_insert_is_Some in Hi as [?|[_ Hi]]; [done|by right].
        -- intros i Hne Hi. apply trim_caught_up. simpl.
           by rewrite lookup_delete_ne, lookup_insert_ne.
      * rewrite lookup_insert_eq. simpl. rewrite Z.eqb_refl.
        intros [= <-]. unfold Inv2, wait. simpl.
        destruct (_nextValue (w_this w)) as [p|]; simpl.
        -- apply (inv2_update w g (_nextGeneratorID (w_this w)) G);
             [done|done|done| | | |done|].
           ++ right. by rewrite Hph.
           ++ intros i Hi. simpl in Hi.
              apply lookup_insert_is_Some in Hi as [<-|[Hne Hi]];
                [by left|by right].
           ++ intros i Hne Hi. simpl. by rewrite lookup_insert_ne.
           ++ intros id0 p0 [= <- <-]. simpl. apply lookup_insert_eq.
        -- apply (inv2_update w g (_nextGeneratorID (w_this w)) G);
             [done|done|done| | | | |].
           ++ right. by rewrite Hph.
           ++ intros i Hi. simpl in Hi.
              apply lookup_insert_is_Some in Hi as [<-|[Hne Hi]];
                [by left|by right].
           ++ intros i Hne Hi. simpl. by rewrite lookup_insert_ne.
           ++ apply unresolved_before_app.
           ++ intros id0 p0 [= <- <-]. simpl. apply lookup_insert_eq.
    + assert (phase_id (g_phase G) = Some id) as Hid by (by rewrite Hph).
      unfold loop_turn. destruct (signal_aborted w G).
      { intros [= <-]. by apply Inv2_finish. }
      destruct (_indices (w_this w) !! id) as [index|] eqn:Hindex; [|done].
      simpl. destruct (index =? _) eqn:Hend; intros [= <-].
      * apply Inv2_wait; try done. apply Z.eqb_eq in Hend. by rewrite <- Hend.
      * by apply Inv2_deliver.
    + by intros [= <-].
  - unfold return_. destruct (w_generators w !! g) as [G|] eqn:HG; [|done].
    simpl. destruct (g_phase G) as [|id p|id|] eqn:Hph; [|done| |].
    + intros [= <-]. unfold Inv2. simpl.
      apply (inv2_update w g (_nextGeneratorID (w_this w)) G);
        [done|done|done| | |done|done|done].
      * right. by rewrite Hph.
      * intros i Hi. right. split; [|done]. intros ->.
        rewrite Hfresh in Hi. by destruct Hi.
    + intros [= <-]. apply Inv2_finish; try done. by rewrite Hph.
    + by intros [= <-].
  - unfold settle. destruct (w_generators w !! g) as [G|] eqn:HG; [|done].
    simpl. destruct (g_phase G) as [|id p|id|] eqn:Hph; try done.
    assert (phase_id (g_phase G) = Some id) as Hid by (by rewrite Hph).
    destruct (_ || _); [|done]. unfold after_await.
    destruct (signal_aborted w G).
    { intros [= <-]. rewrite finish_cleanup. by apply Inv2_finish. }
    destruct (_indices (w_this w) !! id) as [index|]; [|done]. simpl.
    intros [= <-]. by apply Inv2_deliver.
  - unfold produce. destruct (w_pushing w); [|done]. intros [= <-].
    split; simpl; [|done].
    intros g G id p HG Hph Hunres. exfalso.
    specialize (Hgens g G HG). unfold gen_ok in Hgens. rewrite Hph in Hgens.
    destruct Hgens as (N & c & _ & _ & _ & [[Hp _]|Hnext]).
    + destruct (_resolveNextValue (w_this w)) as [p'|];
        [|by rewrite Hp in Hunres].
      destruct (decide (p' = p)) as [->|Hne].
      * rewrite list_lookup_insert_eq in Hunres; [done|].
        by eapply lookup_lt_Some.
      * by rewrite list_lookup_insert_ne, Hp in Hunres.
    + rewrite Hres, Hnext in Hunres.
      rewrite list_lookup_insert_eq in Hunres; [done|].
      eapply lookup_lt_Some. by apply Hpend.
  - unfold finish_upstream. destruct (w_pushing w); [|done]. by intros [= <-].
  - by intros [= <-].
Qed.

Theorem Inv2_reachable w : reachable w → Inv w ∧ Inv2 w.
Proof.
  intros (has_iterable & es & Hrun).
  assert (∀ es w0 w1, Inv w0 → Inv2 w0 → run es w0 = Some w1 →
                      Inv w1 ∧ Inv2 w1) as Hind.
  { clear. intros es. induction es as [|e es IH]; intros w0 w1 H1 H2; simpl.
    - by intros [= <-].
    - destruct (step e w0) as [w0'|] eqn:Hstep; [|done]. simpl.
      apply IH; [by apply (Inv_step e w0)|by apply (Inv2_step e w0)]. }
  apply (Hind es (new_world has_iterable)); [| |done].
  - apply Inv_new_world.
  - apply Inv2_new_world.
Qed.

End second_invariant.

(** ** Delivery *)

Section delivery.
Context {T : Type}.
Implicit Types (w : World (T:=T)) (G : Generator (T:=T)).

(** The [k]-th value a listener has been yielded is the [k]-th production
    after it joined. *)
Lemma log_positions w (g : nat) G (N : nat) :
  Inv w → w_generators w !! g = Some G → g_joined G = Some N →
  ∀ k x, g_log G !! k = Some x →
         ∃ v, x = Some v ∧ w_produced w !! (N + k)%nat = Some v.
Proof.
  intros HInv HG HN k x Hk.
  destruct (log_since_join w g G N HInv HG HN) as (_ & [rest Hpre] & _).
  assert ((Some <$> drop N (w_produced w)) !! k = Some x) as Hx.
  { rewrite Hpre. by apply lookup_app_l_Some. }
  rewrite list_lookup_fmap, lookup_drop in Hx.
  destruct (w_produced w !! (N + k)%nat) as [v|]; [|done].
  exists v. simpl in Hx. split; congruence.
Qed.

(** The registry and the buffer after a delivery (lines 79-81): the cursor of
    the listener has moved past the value it was given and past nothing
    else, and every other listener has the unread values it had. *)
Lemma deliver_cursor w (g id : nat) G (c : Z) :
  Inv w → w_generators w !! g = Some G → phase_id (g_phase G) = Some id →
  _indices (w_this w) !! id = Some c → c < len (_buffer (w_this w)) →
  Inv (deliver g G id c w)
  ∧ ∃ c',
      _indices (w_this (deliver g G id c w)) !! id = Some c'
      ∧ 0 ≤ c' ≤ len (_buffer (w_this (deliver g G id c w)))
      ∧ drop (Z.to_nat c') (_buffer (w_this (deliver g G id c w)))
        = drop (Z.to_nat (c + 1)) (_buffer (w_this w))
      ∧ len (_buffer (w_this (deliver g G id c w))) - c'
        = len (_buffer (w_this w)) - (c + 1)
      ∧ ∀ id2 c2, id2 ≠ id → _indices (w_this w) !! id2 = Some c2 →
          ∃ c2', _indices (w_this (deliver g G id c w)) !! id2 = Some c2'
                 ∧ drop (Z.to_nat c2') (_buffer (w_this (deliver g G id c w)))
                   = drop (Z.to_nat c2) (_buffer (w_this w))
                 ∧ (c2 < len (_buffer (w_this w)) →
                    c2' < len (_buffer (w_this (deliver g G id c w)))).
Proof.
  intros HInv HG Hid Hc Hlt.
  pose proof (Inv_deliver w g G id HInv HG Hid c Hc Hlt) as HInv'.
  split; [done|].
  pose proof HInv as ((Hcur & _) & _). pose proof HInv' as ((Hcur' & _) & _).
  destruct (Hcur id c Hc) as [H0 _].
  set (b1 := set_indices (<[id := c + 1]> (_indices (w_this w))) (w_this w)).
  assert (w_this (deliver g G id c w) = _trim b1) as Hthis by done.
  assert (∀ i n n', _indices (w_this w) !! i = Some n ∨ (i = id ∧ n = c + 1) →
            _indices b1 !! i = Some n →
            0 ≤ n ≤ len (_buffer (w_this w)) →
            _indices (_trim b1) !! i = Some n' →
            drop (Z.to_nat n') (_buffer (_trim b1))
              = drop (Z.to_nat n) (_buffer (w_this w)) →
            0 ≤ n' ≤ len (_buffer (_trim b1))
            ∧ len (_buffer (_trim b1)) - n' = len (_buffer (w_this w)) - n)
    as Hlen.
  { intros i n n' _ _ Hn Hn' Hdrop. rewrite <- Hthis in *.
    pose proof (Hcur' i n' Hn') as Hr. split; [done|].
    apply (f_equal length) in Hdrop. rewrite !length_drop in Hdrop.
    unfold len in *. lia. }
  destruct (trim_unread b1 id (c + 1)) as (c' & Hc' & _ & Hdrop).
  { apply lookup_insert_eq. }
  destruct (Hlen id (c + 1) c') as [Hr Hd]; try done.
  { by right. } { apply lookup_insert_eq. } { lia. }
  rewrite Hthis. exists c'. split; [done|]. split; [done|].
  split; [done|]. split; [done|].
  intros id2 c2 Hne Hc2.
  destruct (trim_unread b1 id2 c2) as (c2' & Hc2' & _ & Hdrop2).
  { simpl. by rewrite lookup_insert_ne. }
  destruct (Hlen id2 c2 c2') as [Hr2 Hd2]; try done.
  { by left. } { simpl. by rewrite lookup_insert_ne. } { by apply (Hcur id2). }
  exists c2'. split; [done|]. split; [done|]. lia.
Qed.

(** A listener whose signal has not fired can always go on: as long as there
    is an unread value its next resumption is enabled and delivers, and by
    its own resumptions alone it reaches the point where it has been yielded
    everything produced since it joined. *)
Lemma drain (n : nat) :
  ∀ w (g id : nat) G (c : Z) (N : nat),
    Inv w → Inv2 w →
    w_generators w !! g = Some G → phase_id (g_phase G) = Some id →
    g_joined G = Some N → signal_aborted w G = false →
    _indices (w_this w) !! id = Some c →
    (Z.to_nat (len (_buffer (w_this w)) - c) ≤ n)%nat →
    ∃ es w' G',
      Forall (λ e, resumed e = Some g) es
      ∧ run es w = Some w'
      ∧ w_produced w' = w_produced w
      ∧ w_generators w' !! g = Some G'
      ∧ g_log G' = Some <$> drop N (w_produced w').
Proof.
  induction n as [|n IH]; intros w g id G c N HInv HInv2 HG Hid HN Hno Hc Hn.
  all: pose proof HInv as ((Hcur & _) & _);
    destruct (Hcur id c Hc) as [H0 Hle];
    destruct (decide (c = len (_buffer (w_this w)))) as [Hend|Hmore].
  1, 3: exists [], w, G; split; [done|]; split; [done|]; split; [done|];
    split; [done|];
    destruct (log_since_join w g G N HInv HG HN) as (_ & _ & Hreg);
    destruct (Hreg id Hid) as (c0 & Hc0 & _ & Htr);
    assert (c0 = c) as -> by congruence;
    rewrite Htr, Hend; unfold len;
    by rewrite Nat2Z.id, drop_all, fmap_nil, app_nil_r.
  - lia.
  - assert (c < len (_buffer (w_this w))) as Hlt by lia.
    assert (∃ e, resumed e = Some g
                 ∧ step e w = Some (deliver g G id c w)) as (e & He & Hstep).
    { destruct (g_phase G) as [|id' p|id'|] eqn:Hph; try done;
        injection Hid as ->.
      - destruct (promise_resolved w p) eqn:Hp.
        + exists (Settle g). split; [done|]. simpl. unfold settle.
          rewrite HG. simpl. rewrite Hph, Hp. simpl.
          unfold after_await. by rewrite Hno, Hc.
        + destruct HInv2 as [Hblk _].
          pose proof (Hblk g G id p HG Hph Hp). congruence.
      - exists (Next g). split; [done|]. simpl. unfold next.
        rewrite HG. simpl. rewrite Hph. unfold loop_turn.
        rewrite Hno, Hc. simpl.
        by rewrite (proj2 (Z.eqb_neq c (len (_buffer (w_this w))))). }
    destruct (deliver_cursor w g id G c HInv HG Hid Hc Hlt)
      as (HInv' & c' & Hc' & Hr' & _ & Hd' & _).
    pose proof (Inv2_deliver w g G id HInv HInv2 HG Hid c) as HInv2'.
    set (G1 := {| g_signal := g_signal G; g_phase := SuspendedYield id;
                  g_joined := g_joined G;
                  g_log := g_log G ++ [array_get (_buffer (w_this w)) c] |}).
    assert (w_generators (deliver g G id c w) !! g = Some G1) as HG1.
    { simpl. apply list_lookup_insert_eq. by eapply lookup_lt_Some. }
    assert (Z.to_nat (len (_buffer (w_this (deliver g G id c w))) - c') ≤ n)%nat
      as Hn' by lia.
    destruct (IH (deliver g G id c w) g id G1 c' N HInv' HInv2' HG1 eq_refl
                HN Hno Hc' Hn')
      as (es & w' & G' & Hes & Hrun & Hpr & HG' & Hlog).
    exists (e :: es), w', G'. split; [by constructor|].
    split; [simpl; by rewrite Hstep|]. by repeat split.
Qed.

(** *** C1 *)

(** C1: for a listener whose iteration begins before the source has produced
    anything, at every later moment
    - what it has observed is a prefix of the sequence the source has
      produced, and its [k]-th observation is the [k]-th production;
    - what it has not observed yet is exactly what lies in the buffer from
      its cursor on, and at the end of the buffer it has observed the whole
      sequence;
    - as long as it is running and its signal has not fired, its own
      resumptions alone lead it to the point where the sequence it has
      observed equals the sequence produced. *)
Theorem listener_from_start_observes_production
    (es : list event) w w1 w2 (g : nat) G :
  reachable w → w_produced w = [] →
  w_generators w !! g = Some G → g_phase G = SuspendedStart →
  next g w = Some w1 → run es w1 = Some w2 →
  ∃ G2,
    w_generators w2 !! g = Some G2
    ∧ g_log G2 `prefix_of` (Some <$> w_produced w2)
    ∧ (∀ id, phase_id (g_phase G2) = Some id →
         ∃ c, _indices (w_this w2) !! id = Some c
              ∧ 0 ≤ c ≤ len (_buffer (w_this w2))
              ∧ Some <$> w_produced w2 =
                g_log G2 ++ (Some <$> drop (Z.to_nat c) (_buffer (w_this w2)))
              ∧ (c = len (_buffer (w_this w2)) →
                 g_log G2 = Some <$> w_produced w2))
    ∧ (∀ k x, g_log G2 !! k = Some x →
              ∃ v, x = Some v ∧ w_produced w2 !! k = Some v)
    ∧ (∀ id, phase_id (g_phase G2) = Some id →
         signal_aborted w2 G2 = false →
         ∃ es' w3 G3,
           Forall (λ e, resumed e = Some g) es'
           ∧ run es' w2 = Some w3
           ∧ w_produced w3 = w_produced w2
           ∧ w_generators w3 !! g = Some G3
           ∧ g_log G3 = Some <$> w_produced w3).
Proof.
  intros Hw Hnone HG Hph Hnext Hrun.
  destruct (log_after_first_next es w w1 w2 g G Hw HG Hph Hnext Hrun)
    as (later & G2 & Hlater & HG2 & Hj2 & Hpre & Hreg).
  rewrite Hnone in Hlater, Hj2. simpl in Hlater, Hj2. subst later.
  assert (reachable w2) as Hw2.
  { apply (reachable_run es w1); [|done].
    by apply (reachable_step (Next g) w). }
  destruct (Inv2_reachable w2 Hw2) as [HInv2 HInv2'].
  exists G2. split; [done|]. split; [done|]. split; [|split].
  - intros id Hid. destruct (Hreg id Hid) as (c & Hc & Hrange & Htr).
    exists c. split; [done|]. split; [done|]. split; [done|].
    intros ->. unfold len in Htr.
    by rewrite Htr, Nat2Z.id, drop_all, fmap_nil, app_nil_r.
  - intros k x Hk.
    by destruct (log_positions w2 g G2 0%nat HInv2 HG2 Hj2 k x Hk)
      as (v & -> & Hv); exists v.
  - intros id Hid Hno. destruct (Hreg id Hid) as (c & Hc & _ & _).
    destruct (drain (Z.to_nat (len (_buffer (w_this w2)) - c)) w2 g id G2 c
                0%nat HInv2 HInv2' HG2 Hid Hj2 Hno Hc (le_n _))
      as (es' & w3 & G3 & Hes & Hrun' & Hpr & HG3 & Hlog).
    by exists es', w3, G3.
Qed.

(** *** C7 *)

(** C7: a listener that waits on a promise that has been resolved, and whose
    signal has not fired, has its cursor strictly below the length of the
    buffer; its continuation is defined, reads a value inside the buffer and
    yields it.  Every value it has been yielded, that one included, is the
    production at the same position after its join, so no value comes twice
    and none is skipped.  Afterwards its cursor has moved past that one
    value and no further, and every other listener woken with it is still
    woken, with the same unread values ahead of its own cursor. *)
Theorem woken_listener_reads_in_bounds w (g id p : nat) G :
  reachable w →
  w_generators w !! g = Some G → g_phase G = Awaiting id p →
  promise_resolved w p = true → signal_aborted w G = false →
  ∃ c v N,
    _indices (w_this w) !! id = Some c
    ∧ 0 ≤ c < len (_buffer (w_this w))
    ∧ array_get (_buffer (w_this w)) c = Some v
    ∧ step (Settle g) w = Some (deliver g G id c w)
    ∧ w_generators (deliver g G id c w) !! g =
      Some {| g_signal := g_signal G; g_phase := SuspendedYield id;
              g_joined := g_joined G; g_log := g_log G ++ [Some v] |}
    ∧ g_joined G = Some N
    ∧ w_produced w !! (N + length (g_log G))%nat = Some v
    ∧ (∀ k x, (g_log G ++ [Some v]) !! k = Some x →
              ∃ u, x = Some u ∧ w_produced w !! (N + k)%nat = Some u)
    ∧ (∃ c', _indices (w_this (deliver g G id c w)) !! id = Some c'
             ∧ 0 ≤ c' ≤ len (_buffer (w_this (deliver g G id c w)))
             ∧ drop (Z.to_nat c') (_buffer (w_this (deliver g G id c w)))
               = drop (Z.to_nat (c + 1)) (_buffer (w_this w)))
    ∧ (∀ g2 G2 id2 p2,
         g2 ≠ g → w_generators w !! g2 = Some G2 →
         g_phase G2 = Awaiting id2 p2 → promise_resolved w p2 = true →
         w_generators (deliver g G id c w) !! g2 = Some G2
         ∧ promise_resolved (deliver g G id c w) p2 = true
         ∧ ∃ c2 c2',
             _indices (w_this w) !! id2 = Some c2
             ∧ _indices (w_this (deliver g G id c w)) !! id2 = Some c2'
             ∧ c2 < len (_buffer (w_this w))
             ∧ c2' < len (_buffer (w_this (deliver g G id c w)))
             ∧ drop (Z.to_nat c2') (_buffer (w_this (deliver g G id c w)))
               = drop (Z.to_nat c2) (_buffer (w_this w))).
Proof.
  intros Hw HG Hph Hres Hno. pose proof (Inv_reachable w Hw) as HInv.
  assert (phase_id (g_phase G) = Some id) as Hid by (by rewrite Hph).
  destruct (woken_cursor_in_bounds w g id p G HInv HG Hph Hres)
    as (N & c & HN & Hc & Hrange & _ & Htr).
  assert (is_Some (_buffer (w_this w) !! Z.to_nat c)) as [v Hv].
  { apply lookup_lt_is_Some. unfold len in Hrange. lia. }
  assert (array_get (_buffer (w_this w)) c = Some v) as Hget.
  { rewrite array_get_lookup by lia. done. }
  assert (w_generators (deliver g G id c w) !! g =
          Some {| g_signal := g_signal G; g_phase := SuspendedYield id;
                  g_joined := g_joined G; g_log := g_log G ++ [Some v] |})
    as HG'.
  { simpl. rewrite Hget. apply list_lookup_insert_eq.
    by eapply lookup_lt_Some. }
  destruct (deliver_cursor w g id G c HInv HG Hid Hc (proj2 Hrange))
    as (HInv' & c' & Hc' & Hr' & Hdrop' & _ & Hothers).
  exists c, v, N. split; [done|]. split; [done|]. split; [done|]. split.
  { simpl. unfold settle. rewrite HG. simpl. rewrite Hph, Hres. simpl.
    unfold after_await. by rewrite Hno, Hc. }
  split; [done|]. split; [done|]. split.
  { apply (f_equal (λ l, l !! length (g_log G))) in Htr.
    rewrite list_lookup_fmap, lookup_drop, lookup_app_r, Nat.sub_diag in Htr
      by done.
    rewrite list_lookup_fmap, lookup_drop, Nat.add_0_r, Hv in Htr.
    destruct (w_produced w !! (N + length (g_log G))%nat); by inversion Htr. }
  split.
  { intros k x Hk.
    apply (log_positions (deliver g G id c w) g _ N HInv' HG'); done. }
  split; [by exists c'|].
  intros g2 G2 id2 p2 Hne HG2 Hph2 Hres2.
  split; [simpl; by rewrite list_lookup_insert_ne|]. split; [done|].
  destruct (woken_cursor_in_bounds w g2 id2 p2 G2 HInv HG2 Hph2 Hres2)
    as (N2 & c2 & _ & Hc2 & Hrange2 & _).
  assert (id2 ≠ id) as Hneid.
  { intros ->. destruct HInv as (_ & _ & Huniq).
    apply Hne, (Huniq g2 g G2 G id); [done|done|by rewrite Hph2|done]. }
  destruct (Hothers id2 c2 Hneid Hc2) as (c2' & Hc2' & Hdrop2 & Hlt2).
  exists c2, c2'. split; [done|]. split; [done|]. split; [lia|].
  split; [apply Hlt2; lia|done].
Qed.

End delivery.

(** ** What a consumer and a producer can rely on *)

Section guarantees.
Context {T : Type}.
Implicit Types (w : World (T:=T)) (G : Generator (T:=T)).

(** *** The non-null assertions of lines 59, 77 and 82 *)

Lemma loop_turn_defined w (g id : nat) G :
  is_Some (_indices (w_this w) !! id) → is_Some (loop_turn g G id w).
Proof.
  intros [index Hindex]. unfold loop_turn.
  destruct (signal_aborted w G); [done|]. rewrite Hindex. simpl.
  by destruct (index =? _).
Qed.

Lemma after_await_defined w (g id : nat) G :
  is_Some (_indices (w_this w) !! id) → is_Some (after_await g G id w).
Proof.
  intros [index Hindex]. unfold after_await.
  destruct (signal_aborted w G); [done|]. by rewrite Hindex.
Qed.

Lemma registered_under_identity w (g id : nat) G :
  Inv w → w_generators w !! g = Some G → phase_id (g_phase G) = Some id →
  is_Some (_indices (w_this w) !! id).
Proof.
  intros (_ & Hgens & _) HG Hid.
  destruct (gen_ok_registered _ _ _ _ _ (Hgens g G HG) Hid)
    as (N & c & _ & Hc & _). by rewrite Hc.
Qed.

(** The reads [this._indices.get(id)!] always find the cursor: a pull of a
    generator that is not in the middle of a pull, and the continuation of a
    wait that has been settled, are defined in every state the program
    reaches. *)
Theorem pulls_are_defined w (g : nat) G :
  reachable w → w_generators w !! g = Some G →
  ((∀ id p, g_phase G ≠ Awaiting id p) → is_Some (step (Next g) w))
  ∧ (∀ id p, g_phase G = Awaiting id p →
       promise_resolved w p || signal_aborted w G = true →
       is_Some (step (Settle g) w)).
Proof.
  intros Hw HG. pose proof (Inv_reachable w Hw) as HInv. split.
  - intros Hnot. simpl. unfold next. rewrite HG. simpl.
    destruct (g_phase G) as [|id p|id|] eqn:Hph; [| |  |done].
    + apply loop_turn_defined. simpl. by rewrite lookup_insert_eq.
    + by destruct (Hnot id p).
    + apply loop_turn_defined. apply (registered_under_identity w g id G);
        [done|done|by rewrite Hph].
  - intros id p Hph Hready. simpl. unfold settle. rewrite HG. simpl.
    rewrite Hph, Hready. apply after_await_defined.
    apply (registered_under_identity w g id G); [done|done|by rewrite Hph].
Qed.

(** What a generator has yielded is a contiguous run of the values the
    source has produced, one defined value per production. *)
Lemma log_is_segment w (g : nat) G :
  Inv w → w_generators w !! g = Some G →
  ∃ before vs after,
    w_produced w = before ++ vs ++ after ∧ g_log G = Some <$> vs.
Proof.
  intros HInv HG. destruct (g_joined G) as [N|] eqn:HN.
  - destruct (log_since_join w g G N HInv HG HN) as (_ & [k Hk] & _).
    apply fmap_app_inv in Hk as (vs & after & Hlog & _ & Hdrop).
    exists (take N (w_produced w)), vs, after.
    split; [|done]. by rewrite <- Hdrop, take_drop.
  - exists [], [], (w_produced w). split; [done|].
    destruct HInv as (_ & Hgens & _). specialize (Hgens g G HG).
    unfold gen_ok in Hgens. rewrite HN in Hgens.
    destruct (g_phase G) as [|id p|id|].
    + by destruct Hgens as [_ ->].
    + by destruct Hgens as (N & c & ? & _).
    + by destruct Hgens as (N & c & ? & _).
    + by rewrite Hgens.
Qed.

(** A listener never yields [undefined], and it never yields a value out of
    order or twice: its log is a contiguous run of the production. *)
Theorem yields_are_produced_values w (g : nat) G :
  reachable w → w_generators w !! g = Some G →
  (∀ x, x ∈ g_log G → is_Some x)
  ∧ ∃ before vs after,
      w_produced w = before ++ vs ++ after ∧ g_log G = Some <$> vs.
Proof.
  intros Hw HG.
  destruct (log_is_segment w g G (Inv_reachable w Hw) HG)
    as (before & vs & after & Hpr & Hlog).
  split; [|by exists before, vs, after].
  rewrite Hlog. intros x (v & -> & _)%list_elem_of_fmap. by exists v.
Qed.

(** A pull that finds an unread value (lines 59-62 and 79-82) yields it at
    once, and it is the production that follows the ones the listener has
    yielded so far. *)
Theorem pull_reads_next_value w (g id : nat) (c : Z) G :
  reachable w →
  w_generators w !! g = Some G → g_phase G = SuspendedYield id →
  signal_aborted w G = false →
  _indices (w_this w) !! id = Some c → c < len (_buffer (w_this w)) →
  ∃ v N,
    array_get (_buffer (w_this w)) c = Some v
    ∧ step (Next g) w = Some (deliver g G id c w)
    ∧ w_generators (deliver g G id c w) !! g =
      Some {| g_signal := g_signal G; g_phase := SuspendedYield id;
              g_joined := g_joined G; g_log := g_log G ++ [Some v] |}
    ∧ g_joined G = Some N
    ∧ w_produced w !! (N + length (g_log G))%nat = Some v.
Proof.
  intros Hw HG Hph Hno Hc Hlt. pose proof (Inv_reachable w Hw) as HInv.
  pose proof HInv as ((Hcur & _) & Hgens & _).
  destruct (Hcur id c Hc) as [H0 _].
  specialize (Hgens g G HG). unfold gen_ok in Hgens. rewrite Hph in Hgens.
  destruct Hgens as (N & c' & HN & Hc' & _ & Htr).
  assert (c' = c) as -> by congruence.
  assert (is_Some (_buffer (w_this w) !! Z.to_nat c)) as [v Hv].
  { apply lookup_lt_is_Some. unfold len in Hlt. lia. }
  assert (array_get (_buffer (w_this w)) c = Some v) as Hget.
  { by rewrite array_get_lookup. }
  exists v, N. split; [done|]. split.
  { simpl. unfold next. rewrite HG. simpl. rewrite Hph. unfold loop_turn.
    rewrite Hno, Hc. simpl.
    by rewrite (proj2 (Z.eqb_neq c (len (_buffer (w_this w))))) by lia. }
  split.
  { simpl. rewrite Hget. apply list_lookup_insert_eq.
    by eapply lookup_lt_Some. }
  split; [done|].
  apply (f_equal (λ l, l !! length (g_log G))) in Htr.
  rewrite list_lookup_fmap, lookup_drop, lookup_app_r, Nat.sub_diag in Htr
    by done.
  rewrite list_lookup_fmap, lookup_drop, Nat.add_0_r, Hv in Htr.
  destruct (w_produced w !! (N + length (g_log G))%nat); by inversion Htr.
Qed.

(** *** Waiting and waking *)

(** A waiting listener can be resumed by its promise exactly when there is a
    value it has not read: it never sleeps on an unread value and is never
    woken for nothing. *)
Theorem waiting_listener_resolved_iff_unread w (g id p : nat) G :
  reachable w →
  w_generators w !! g = Some G → g_phase G = Awaiting id p →
  ∃ c, _indices (w_this w) !! id = Some c
       ∧ 0 ≤ c ≤ len (_buffer (w_this w))
       ∧ (promise_resolved w p = true ↔ c < len (_buffer (w_this w))).
Proof.
  intros Hw HG Hph. destruct (Inv2_reachable w Hw) as [HInv [Hblk _]].
  destruct (promise_resolved w p) eqn:Hp.
  - destruct (woken_cursor_in_bounds w g id p G HInv HG Hph Hp)
      as (N & c & _ & Hc & Hrange & _).
    exists c. split; [done|]. split; [lia|]. split; [lia|done].
  - pose proof (Hblk g G id p HG Hph Hp) as Hc.
    exists (len (_buffer (w_this w))). split; [done|].
    split; [unfold len; lia|]. split; [done|lia].
Qed.

(** At most one promise is pending: both fields hold the same promise, that
    promise is not resolved, and every listener that waits for an unresolved
    promise waits for that one. *)
Theorem single_pending_promise w :
  reachable w →
  _resolveNextValue (w_this w) = _nextValue (w_this w)
  ∧ (∀ p, _nextValue (w_this w) = Some p →
          w_promises w !! p = Some false)
  ∧ (∀ g G id p, w_generators w !! g = Some G →
       g_phase G = Awaiting id p → promise_resolved w p = false →
       _nextValue (w_this w) = Some p).
Proof.
  intros Hw. destruct (Inv_reachable w Hw) as ((_ & _ & Hres & Hpend) & Hgens & _).
  split; [done|]. split; [done|].
  intros g G id p HG Hph Hp. specialize (Hgens g G HG).
  unfold gen_ok in Hgens. rewrite Hph in Hgens.
  destruct Hgens as (N & c & _ & _ & _ & [[Hyes _]|Hnext]); [|done].
  unfold promise_resolved in Hp. by rewrite Hyes in Hp.
Qed.

(** One turn of the loop of [_pushAll] appends the value, clears the pending
    promise, and leaves every waiting listener resumable: no wake-up is
    lost. *)
Theorem produce_wakes_every_waiter (v : T) w :
  reachable w → w_pushing w = true →
  ∃ w', step (Produce v) w = Some w'
        ∧ _buffer (w_this w') = _buffer (w_this w) ++ [v]
        ∧ _indices (w_this w') = _indices (w_this w)
        ∧ _nextValue (w_this w') = None
        ∧ _resolveNextValue (w_this w') = None
        ∧ (∀ g G id p, w_generators w' !! g = Some G →
             g_phase G = Awaiting id p →
             promise_resolved w' p = true
             ∧ is_Some (step (Settle g) w')).
Proof.
  intros Hw Hon.
  assert (∃ w', step (Produce v) w = Some w') as [w' Hstep].
  { simpl. unfold produce. rewrite Hon. by eexists. }
  exists w'. split; [done|].
  pose proof (Inv_step _ _ _ (Inv_reachable w Hw) Hstep) as HInv'.
  simpl in Hstep. unfold produce in Hstep. rewrite Hon in Hstep.
  injection Hstep as <-. repeat (split; [done|]).
  intros g G id p HG Hph.
  pose proof HInv' as (_ & Hgens & _). specialize (Hgens g G HG).
  unfold gen_ok in Hgens. rewrite Hph in Hgens.
  destruct Hgens as (N & c & _ & Hc & _ & [[Hyes _]|Hnext]); [|done].
  assert (promise_resolved
            {| w_this := push_value v (w_this w);
               w_promises :=
                 match _resolveNextValue (w_this w) with
                 | Some p0 => <[p0 := true]> (w_promises w)
                 | None => w_promises w
                 end;
               w_aborted := w_aborted w;
               w_generators := w_generators w;
               w_pushing := true;
               w_produced := w_produced w ++ [v] |} p = true) as Hp.
  { unfold promise_resolved. simpl. simpl in Hyes. by rewrite Hyes. }
  split; [done|]. simpl. unfold settle. rewrite HG. simpl.
  rewrite Hph, Hp. simpl. apply after_await_defined. by rewrite Hc.
Qed.

(** *** The registry and the buffer *)

(** The registry holds exactly the generators that run under an identity:
    no entry is leaked.  Identities are below [_nextGeneratorID] and no two
    generators share one.  With no such generator the registry is empty. *)
Theorem registry_entries_are_live w :
  reachable w →
  (∀ id, is_Some (_indices (w_this w) !! id) ↔
         ∃ g G, w_generators w !! g = Some G
                ∧ phase_id (g_phase G) = Some id)
  ∧ (∀ id, is_Some (_indices (w_this w) !! id) →
           (id < _nextGeneratorID (w_this w))%nat)
  ∧ (∀ g1 g2 G1 G2 id,
       w_generators w !! g1 = Some G1 → w_generators w !! g2 = Some G2 →
       phase_id (g_phase G1) = Some id → phase_id (g_phase G2) = Some id →
       g1 = g2)
  ∧ ((∀ g G, w_generators w !! g = Some G → phase_id (g_phase G) = None) →
     _indices (w_this w) = ∅).
Proof.
  intros Hw. destruct (Inv2_reachable w Hw) as [HInv [_ Hown]].
  pose proof HInv as ((_ & Hids & _) & _ & Huniq).
  split; [|split; [done|split; [done|]]].
  - intros id. split; [apply Hown|].
    intros (g & G & HG & Hid). by apply (registered_under_identity w g id G).
  - intros Hnone. apply map_eq. intros id. rewrite lookup_empty.
    apply eq_None_not_Some. intros (g & G & HG & Hid)%Hown.
    by rewrite (Hnone g G HG) in Hid.
Qed.

Lemma cleanup_buffer_drop (id : nat) (b : AsyncBroadcaster (T:=T)) :
  ∃ n, _buffer (_cleanup id b) = drop n (_buffer b).
Proof.
  unfold _cleanup.
  destruct (trim_buffer_drop (set_indices (delete id (_indices b)) b))
    as [n Hn]. by exists n.
Qed.

Lemma advance_buffer_drop (id : nat) (index : Z) (b : AsyncBroadcaster (T:=T)) :
  ∃ n, _buffer (advance id index b) = drop n (_buffer b).
Proof.
  unfold advance.
  destruct (trim_buffer_drop
              (set_indices (<[id := index + 1]> (_indices b)) b))
    as [n Hn]. by exists n.
Qed.

Lemma loop_turn_buffer w w' (g id : nat) G :
  loop_turn g G id w = Some w' →
  ∃ n, _buffer (w_this w') = drop n (_buffer (w_this w)).
Proof.
  unfold loop_turn. destruct (signal_aborted w G).
  { intros [= <-]. simpl. apply cleanup_buffer_drop. }
  destruct (_indices (w_this w) !! id) as [index|]; [|done]. simpl.
  destruct (index =? _); intros [= <-].
  - exists 0%nat. unfold wait. by destruct (_nextValue (w_this w)).
  - simpl. apply advance_buffer_drop.
Qed.

Lemma step_buffer (e : event) w w' :
  step e w = Some w' →
  ∃ n, _buffer (w_this w') = drop n (_buffer (w_this w) ++ appended e).
Proof.
  destruct e as [signal|g|g|g|v| |s]; simpl; rewrite ?app_nil_r.
  - intros [= <-]. by exists 0%nat.
  - unfold next. destruct (w_generators w !! g) as [G|]; [|done]. simpl.
    destruct (g_phase G); try done.
    + intros [n Hn]%loop_turn_buffer. by exists n.
    + apply loop_turn_buffer.
    + intros [= <-]. by exists 0%nat.
  - unfold return_. destruct (w_generators w !! g) as [G|]; [|done]. simpl.
    destruct (g_phase G); try done; intros [= <-].
    + by exists 0%nat.
    + simpl. apply cleanup_buffer_drop.
    + by exists 0%nat.
  - unfold settle. destruct (w_generators w !! g) as [G|]; [|done]. simpl.
    destruct (g_phase G) as [|id p|id|]; try done.
    destruct (_ || _); [|done]. unfold after_await.
    destruct (signal_aborted w G).
    { intros [= <-]. rewrite finish_cleanup. simpl.
      apply cleanup_buffer_drop. }
    destruct (_indices (w_this w) !! id) as [index|]; [|done]. simpl.
    intros [= <-]. simpl. apply advance_buffer_drop.
  - unfold produce. destruct (w_pushing w); [|done]. intros [= <-].
    by exists 0%nat.
  - unfold finish_upstream. destruct (w_pushing w); [|done]. intros [= <-].
    by exists 0%nat.
  - intros [= <-]. by exists 0%nat.
Qed.

Lemma buffer_suffix_run (es : list event) w w' :
  _buffer (w_this w) `suffix_of` w_produced w → run es w = Some w' →
  _buffer (w_this w') `suffix_of` w_produced w'.
Proof.
  revert w. induction es as [|e es IH]; intros w Hsuf; simpl.
  - by intros [= <-].
  - destruct (step e w) as [w1|] eqn:Hstep; [|done]. simpl. apply IH.
    destruct (step_buffer e w w1 Hstep) as [n ->].
    destruct (step_histories e w w1 Hstep) as (-> & _).
    etrans; [apply suffix_drop|]. by apply suffix_app.
Qed.

(** The buffer only ever holds values of the source, in the order of their
    production and without a gap: it is the tail of the production. *)
Theorem buffer_is_tail_of_production w :
  reachable w → _buffer (w_this w) `suffix_of` w_produced w.
Proof.
  intros (has_iterable & es & Hrun).
  by apply (buffer_suffix_run es (new_world has_iterable)).
Qed.

(** A broadcaster made without a source (lines 29-33) never holds and never
    delivers a value. *)
Theorem no_source_no_values (es : list event) w :
  run es (new_world false) = Some w →
  w_produced w = []
  ∧ _buffer (w_this w) = []
  ∧ (∀ g G, w_generators w !! g = Some G → g_log G = []).
Proof.
  intros Hrun.
  destruct (run_histories es _ w Hrun) as ((later & Hpr & Hnil) & _).
  rewrite (Hnil eq_refl) in Hpr. simpl in Hpr.
  split; [done|]. split.
  - apply suffix_nil_inv. rewrite <- Hpr.
    by apply (buffer_suffix_run es (new_world false)).
  - intros g G HG.
    assert (Inv w) as HInv by (apply Inv_reachable; by exists false, es).
    destruct (log_is_segment w g G HInv HG) as (before & vs & after & Hseg & ->).
    rewrite Hpr in Hseg. symmetry in Hseg.
    apply app_nil in Hseg as [_ [-> _]%app_nil]. done.
Qed.

(** Once the loop of [_pushAll] has ended, by exhaustion or by an error of
    the source, nothing is appended any more: the production stays as it is
    and the buffer only loses values at its front. *)
Theorem after_upstream_ends_nothing_is_appended (es : list event) w w' :
  w_pushing w = false → run es w = Some w' →
  w_pushing w' = false
  ∧ w_produced w' = w_produced w
  ∧ ∃ n, _buffer (w_this w') = drop n (_buffer (w_this w)).
Proof.
  revert w. induction es as [|e es IH]; intros w Hoff; simpl.
  - intros [= <-]. split; [done|]. split; [done|]. by exists 0%nat.
  - destruct (step e w) as [w1|] eqn:Hstep; [|done]. simpl. intros Hrun.
    destruct (step_histories e w w1 Hstep) as (Hpr & _ & Hpush & _).
    destruct (Hpush Hoff) as [Hoff1 Hnil].
    destruct (step_buffer e w w1 Hstep) as [n Hn].
    rewrite Hnil, app_nil_r in Hpr, Hn.
    destruct (IH w1 Hoff1 Hrun) as (Hoff' & Hpr' & n' & Hn').
    split; [done|]. split; [congruence|].
    exists (n + n')%nat. by rewrite Hn', Hn, drop_drop.
Qed.

(** *** Independence of listeners *)

(** Whatever the other listeners, the source and the signals do (pulls that
    advance and trim, departures that delete and trim, productions), a
    listener that takes no step of its own is not disturbed: its generator
    object stays as it is, it keeps its registry entry, and the values ahead
    of its cursor are the ones that were there, followed by the values
    produced meanwhile. *)
Theorem others_do_not_disturb (es : list event) w w' (g id : nat) (c : Z) G :
  reachable w →
  run es w = Some w' → w_generators w !! g = Some G →
  phase_id (g_phase G) = Some id → _indices (w_this w) !! id = Some c →
  Forall (λ e, resumed e ≠ Some g) es →
  w_generators w' !! g = Some G
  ∧ ∃ later c',
      w_produced w' = w_produced w ++ later
      ∧ _indices (w_this w') !! id = Some c'
      ∧ 0 ≤ c' ≤ len (_buffer (w_this w'))
      ∧ drop (Z.to_nat c') (_buffer (w_this w'))
        = drop (Z.to_nat c) (_buffer (w_this w)) ++ later.
Proof.
  intros Hw Hrun HG Hid Hc Hother.
  assert (w_generators w' !! g = Some G) as HG'.
  { clear Hw Hc. revert w Hrun HG.
    induction Hother as [|e es He _ IH]; intros w; simpl.
    - by intros [= <-].
    - destruct (step e w) as [w1|] eqn:Hstep; [|done]. simpl.
      intros Hrun HG. apply (IH w1 Hrun).
      by apply (step_other_generator e w). }
  split; [done|].
  pose proof (Inv_reachable w Hw) as HInv.
  pose proof (Inv_run es w w' HInv Hrun) as HInv'.
  destruct (run_histories es w w' Hrun) as ((later & Hlater & _) & _).
  pose proof HInv as (_ & Hgens & _). pose proof HInv' as ((Hcur' & _) & Hgens' & _).
  destruct (gen_ok_registered _ _ _ _ _ (Hgens g G HG) Hid)
    as (N & c0 & HN & Hc0 & HNle & Htr).
  destruct (gen_ok_registered _ _ _ _ _ (Hgens' g G HG') Hid)
    as (N' & c' & HN' & Hc' & _ & Htr').
  assert (c0 = c) as -> by congruence.
  assert (N' = N) as -> by congruence.
  exists later, c'. split; [done|]. split; [done|].
  split; [by apply (Hcur' id)|].
  rewrite Hlater, drop_app_le, fmap_app, Htr, <- (assoc_L (++)) in Htr'
    by done.
  apply app_inv_head in Htr'. rewrite <- fmap_app in Htr'.
  by apply (inj (fmap Some)) in Htr'.
Qed.

(** A listener made without a signal (line 24) is ended only by the
    consumer: the one step that completes it is [return()] or [throw()]. *)
Theorem without_signal_only_return_completes (e : event) w w' (g : nat) G G' :
  g_signal G = None →
  step e w = Some w' →
  w_generators w !! g = Some G → w_generators w' !! g = Some G' →
  g_phase G ≠ Completed → g_phase G' = Completed →
  e = Return g.
Proof.
  intros Hsig Hstep HG HG' Hlive Hdone.
  assert (g < length (w_generators w))%nat as Hlt by (by eapply lookup_lt_Some).
  assert (∀ w0 (G0 : Generator (T:=T)),
            g_signal G0 = None → signal_aborted w0 G0 = false) as Hno.
  { intros w0 G0 HG0. unfold signal_aborted. by rewrite HG0. }
  destruct (decide (resumed e = Some g)) as [Hme|Hother].
  - destruct e as [signal|g0|g0|g0|v| |s]; simpl in Hme; try done;
      injection Hme as ->; [exfalso| done |exfalso]; simpl in Hstep.
    + unfold next in Hstep. rewrite HG in Hstep. simpl in Hstep.
      destruct (g_phase G) as [|id p|id|] eqn:Hph; try done;
        unfold loop_turn in Hstep; rewrite Hno in Hstep by done;
        destruct (_indices _ !! _) as [index|]; try done;
        simpl in Hstep; destruct (index =? _); injection Hstep as <-;
        try (unfold wait in HG'; simpl in HG';
             destruct (_nextValue (w_this w)); simpl in HG');
        simpl in HG'; rewrite list_lookup_insert_eq in HG' by done;
        injection HG' as <-; done.
    + unfold settle in Hstep. rewrite HG in Hstep. simpl in Hstep.
      destruct (g_phase G) as [|id p|id|] eqn:Hph; try done.
      destruct (_ || _); [|done]. unfold after_await in Hstep.
      rewrite Hno in Hstep by done.
      destruct (_indices _ !! _) as [index|]; try done.
      simpl in Hstep. injection Hstep as <-.
      simpl in HG'. rewrite list_lookup_insert_eq in HG' by done.
      by injection HG' as <-.
  - pose proof (step_other_generator e w w' g G Hother Hstep HG) as HG0.
    assert (G' = G) as -> by congruence. done.
Qed.

End guarantees.

(** * Concrete states *)

(** A registry with two listeners, at cursors 2 and 3, over four values. *)
Lemma trim_by_min_cursor_witness :
  let b := {| _buffer := [10; 20; 30; 40];
              _nextGeneratorID := 2%nat;
              _indices := <[0%nat := 2]> (<[1%nat := 3]> ∅);
              _nextValue := None;
              _resolveNextValue := None |} in
  ∃ m,
    Math_min (map_to_list (_indices b)).*2 = Fin m
    ∧ (∃ i, _indices b !! i = Some m)
    ∧ (∀ i n, _indices b !! i = Some n → m ≤ n)
    ∧ (0 < m →
         _buffer (_trim b) = drop (Z.to_nat m) (_buffer b)
         ∧ _buffer b = take (Z.to_nat m) (_buffer b) ++ _buffer (_trim b)
         ∧ (m ≤ len (_buffer b) →
              len (take (Z.to_nat m) (_buffer b)) = m
              ∧ len (_buffer (_trim b)) = len (_buffer b) - m)
         ∧ (∀ i, _indices (_trim b) !! i = (λ n, n - m) <$> _indices b !! i)
         ∧ Math_min (map_to_list (_indices (_trim b))).*2 = Fin 0
         ∧ _nextGeneratorID (_trim b) = _nextGeneratorID b
         ∧ _nextValue (_trim b) = _nextValue b
         ∧ _resolveNextValue (_trim b) = _resolveNextValue b)
    ∧ (m = 0 → _trim b = b).
Proof.
  intros b. apply (trim_by_min_cursor b).
  intros He. apply (f_equal (λ ix : gmap nat Z, ix !! 0%nat)) in He.
  vm_compute in He. discriminate He.
Defined.

(** C5, as stated, fails: with no listener registered, [_trim] removes the
    two values of this buffer. *)
Lemma trim_no_listeners_counterexample :
  let b := {| _buffer := [1; 2];
              _nextGeneratorID := 0%nat;
              _indices := ∅;
              _nextValue := None;
              _resolveNextValue := None |} in
  _indices b = ∅ ∧ _buffer (_trim b) = [] ∧ _buffer (_trim b) ≠ _buffer b.
Proof. vm_compute. repeat split. discriminate. Qed.

Lemma trim_no_listeners_witness :
  let b := {| _buffer := [1; 2];
              _nextGeneratorID := 0%nat;
              _indices := ∅;
              _nextValue := None;
              _resolveNextValue := None |} in
  _buffer (_trim b) = []
  ∧ _indices (_trim b) = ∅
  ∧ _nextGeneratorID (_trim b) = _nextGeneratorID b
  ∧ _nextValue (_trim b) = _nextValue b
  ∧ _resolveNextValue (_trim b) = _resolveNextValue b.
Proof. intros b. apply (trim_no_listeners b). reflexivity. Defined.

Lemma reachable_after (es : list (event (T:=Z))) :
  is_Some (run es (new_world true)) → reachable (after es).
Proof.
  intros [w Hw]. exists true, es. unfold after. by rewrite Hw.
Qed.

(** A listener starts before the first of three values; it has pulled two. *)
Lemma listener_from_start_observes_production_witness :
  let w2 := after [Values None; Next 0%nat; Produce 1; Settle 0%nat;
                   Produce 2; Produce 3; Next 0%nat] in
  ∃ G2,
    w_generators w2 !! 0%nat = Some G2
    ∧ g_log G2 `prefix_of` (Some <$> w_produced w2)
    ∧ (∀ id, phase_id (g_phase G2) = Some id →
         ∃ c, _indices (w_this w2) !! id = Some c
              ∧ 0 ≤ c ≤ len (_buffer (w_this w2))
              ∧ Some <$> w_produced w2 =
                g_log G2 ++ (Some <$> drop (Z.to_nat c) (_buffer (w_this w2)))
              ∧ (c = len (_buffer (w_this w2)) →
                 g_log G2 = Some <$> w_produced w2))
    ∧ (∀ k x, g_log G2 !! k = Some x →
              ∃ v, x = Some v ∧ w_produced w2 !! k = Some v)
    ∧ (∀ id, phase_id (g_phase G2) = Some id →
         signal_aborted w2 G2 = false →
         ∃ es' w3 G3,
           Forall (λ e, resumed e = Some 0%nat) es'
           ∧ run es' w2 = Some w3
           ∧ w_produced w3 = w_produced w2
           ∧ w_generators w3 !! 0%nat = Some G3
           ∧ g_log G3 = Some <$> w_produced w3).
Proof.
  intros w2.
  apply (listener_from_start_observes_production
           [Produce 1; Settle 0%nat; Produce 2; Produce 3; Next 0%nat]
           (after [Values None]) (after [Values None; Next 0%nat]) w2 0%nat
           {| g_signal := None; g_phase := SuspendedStart;
              g_joined := None; g_log := [] |}).
  - apply reachable_after. vm_compute. eauto.
  - reflexivity.
  - reflexivity.
  - reflexivity.
  - vm_compute. reflexivity.
  - vm_compute. reflexivity.
Defined.

(** A listener starts after two values have been produced. *)
Lemma late_listener_observes_later_values_witness :
  let w := after [Produce 1; Produce 2; Values None] in
  let w1 := after [Produce 1; Produce 2; Values None; Next 0%nat] in
  w_produced w = [1; 2]
  ∧ _indices (w_this w1) !! 0%nat = Some 2
  ∧ (∀ es w2, run es w1 = Some w2 →
       ∃ later G2,
         w_produced w2 = w_produced w ++ later
         ∧ w_generators w2 !! 0%nat = Some G2
         ∧ g_log G2 `prefix_of` (Some <$> later)
         ∧ (∀ id, phase_id (g_phase G2) = Some id →
              ∃ c, _indices (w_this w2) !! id = Some c
                   ∧ Some <$> later =
                     g_log G2
                     ++ (Some <$> drop (Z.to_nat c) (_buffer (w_this w2))))).
Proof.
  intros w w1. split; [reflexivity|]. split; [reflexivity|].
  apply (late_listener_observes_later_values w w1 0%nat
           {| g_signal := None; g_phase := SuspendedStart;
              g_joined := None; g_log := [] |}).
  - apply reachable_after. vm_compute. eauto.
  - reflexivity.
  - reflexivity.
  - vm_compute. reflexivity.
Defined.

(** C4, as stated, fails: the source has produced one value and is
    exhausted, the listener has consumed that value and pulls again; it is
    left waiting for an unresolved promise and is not completed. *)
Lemma exhausted_upstream_counterexample :
  let es := [Values None; Next 0%nat; Produce 1; Settle 0%nat; Finish] in
  ∃ w w1 G G1,
    run es (new_world true) = Some w
    ∧ w_pushing w = false
    ∧ w_generators w !! 0%nat = Some G
    ∧ g_phase G = SuspendedYield 0
    ∧ g_log G = [Some 1]
    ∧ _indices (w_this w) !! 0%nat = Some (len (_buffer (w_this w)))
    ∧ step (Next 0%nat) w = Some w1
    ∧ w_generators w1 !! 0%nat = Some G1
    ∧ g_phase G1 = Awaiting 0 1
    ∧ g_phase G1 ≠ Completed
    ∧ promise_resolved w1 1 = false.
Proof.
  intros es. eexists _, _, _, _.
  split; [vm_compute; reflexivity|].
  split; [reflexivity|]. split; [reflexivity|]. split; [reflexivity|].
  split; [reflexivity|]. split; [reflexivity|].
  split; [vm_compute; reflexivity|].
  split; [reflexivity|]. split; [reflexivity|]. split; [discriminate|].
  reflexivity.
Qed.

Lemma exhausted_upstream_leaves_listener_waiting_witness :
  let w := after [Values None; Next 0%nat; Produce 1; Settle 0%nat; Finish] in
  let G := {| g_signal := None; g_phase := SuspendedYield 0;
              g_joined := Some 0%nat; g_log := [Some 1] |} in
  ∃ w1 p,
    step (Next 0%nat) w = Some w1
    ∧ w_generators w1 !! 0%nat = Some (set_phase (Awaiting 0 p) G)
    ∧ promise_resolved w1 p = false
    ∧ ∀ es w2, run es w1 = Some w2 → signal_aborted w2 G = false →
               w_generators w2 !! 0%nat = Some (set_phase (Awaiting 0 p) G)
               ∧ promise_resolved w2 p = false
               ∧ step (Settle 0%nat) w2 = None.
Proof.
  intros w G.
  apply (exhausted_upstream_leaves_listener_waiting w 0%nat 0%nat G).
  - apply reachable_after. vm_compute. eauto.
  - reflexivity.
  - reflexivity.
  - reflexivity.
  - reflexivity.
  - reflexivity.
Defined.

(** A listener waits while two values are produced. *)
Lemma cursors_bounded_and_monotone_witness :
  let w := after [Values None; Next 0%nat; Produce 1; Produce 2] in
  (∀ id c, _indices (w_this w) !! id = Some c →
           0 ≤ c ≤ len (_buffer (w_this w)))
  ∧ (∀ e w', step e w = Some w' →
       ∃ k, 0 ≤ k ≤ len (_buffer (w_this w) ++ appended e)
            ∧ _buffer (w_this w') =
              drop (Z.to_nat k) (_buffer (w_this w) ++ appended e)
            ∧ ∀ id c c', _indices (w_this w) !! id = Some c →
                         _indices (w_this w') !! id = Some c' →
                         c' = c - k ∨ c' = c + 1 - k).
Proof.
  intros w. apply (cursors_bounded_and_monotone w).
  apply reachable_after. vm_compute. eauto.
Defined.

(** Two listeners wait on the same promise when a value arrives. *)
Lemma woken_listener_reads_in_bounds_witness :
  let w := after [Values None; Values None; Next 0%nat; Next 1%nat;
                  Produce 7] in
  let G := {| g_signal := None; g_phase := Awaiting 1 0;
              g_joined := Some 0%nat; g_log := [] |} in
  ∃ c v N,
    _indices (w_this w) !! 1%nat = Some c
    ∧ 0 ≤ c < len (_buffer (w_this w))
    ∧ array_get (_buffer (w_this w)) c = Some v
    ∧ step (Settle 1%nat) w = Some (deliver 1%nat G 1%nat c w)
    ∧ w_generators (deliver 1%nat G 1%nat c w) !! 1%nat =
      Some {| g_signal := g_signal G; g_phase := SuspendedYield 1;
              g_joined := g_joined G; g_log := g_log G ++ [Some v] |}
    ∧ g_joined G = Some N
    ∧ w_produced w !! (N + length (g_log G))%nat = Some v
    ∧ (∀ k x, (g_log G ++ [Some v]) !! k = Some x →
              ∃ u, x = Some u ∧ w_produced w !! (N + k)%nat = Some u)
    ∧ (∃ c', _indices (w_this (deliver 1%nat G 1%nat c w)) !! 1%nat = Some c'
             ∧ 0 ≤ c' ≤ len (_buffer (w_this (deliver 1%nat G 1%nat c w)))
             ∧ drop (Z.to_nat c')
                 (_buffer (w_this (deliver 1%nat G 1%nat c w)))
               = drop (Z.to_nat (c + 1)) (_buffer (w_this w)))
    ∧ (∀ g2 G2 id2 p2,
         g2 ≠ 1%nat → w_generators w !! g2 = Some G2 →
         g_phase G2 = Awaiting id2 p2 → promise_resolved w p2 = true →
         w_generators (deliver 1%nat G 1%nat c w) !! g2 = Some G2
         ∧ promise_resolved (deliver 1%nat G 1%nat c w) p2 = true
         ∧ ∃ c2 c2',
             _indices (w_this w) !! id2 = Some c2
             ∧ _indices (w_this (deliver 1%nat G 1%nat c w)) !! id2
               = Some c2'
             ∧ c2 < len (_buffer (w_this w))
             ∧ c2' < len (_buffer (w_this (deliver 1%nat G 1%nat c w)))
             ∧ drop (Z.to_nat c2')
                 (_buffer (w_this (deliver 1%nat G 1%nat c w)))
               = drop (Z.to_nat c2) (_buffer (w_this w))).
Proof.
  intros w G. apply (woken_listener_reads_in_bounds w 1%nat 1%nat 0%nat G).
  - apply reachable_after. vm_compute. eauto.
  - reflexivity.
  - reflexivity.
  - reflexivity.
  - reflexivity.
Defined.


(** The signal has fired before the first pull. *)
Lemma aborted_before_start_witness :
  let w := after [Values (Some 5%nat); SignalAbort 5%nat; Produce 1] in
  ∃ w' G',
    step (Next 0%nat) w = Some w'
    ∧ w_generators w' !! 0%nat = Some G'
    ∧ g_phase G' = Completed
    ∧ g_log G' = []
    ∧ w_this w' = _cleanup (_nextGeneratorID (w_this w)) (register (w_this w))
    ∧ _indices (w_this w') !! _nextGeneratorID (w_this w) = None
    ∧ (∀ es w2, run es w' = Some w2 → w_generators w2 !! 0%nat = Some G').
Proof.
  intros w.
  apply (aborted_before_start w 0%nat
           {| g_signal := Some 5%nat; g_phase := SuspendedStart;
              g_joined := None; g_log := [] |}).
  - apply reachable_after. vm_compute. eauto.
  - reflexivity.
  - reflexivity.
  - reflexivity.
Defined.

(** A sequence is obtained after one value has been produced. *)
Lemma accessor_registers_nothing_witness :
  let w := after [Produce 1] in
  step (Values None) w = Some (call_values None w)
  ∧ w_this (call_values None w) = w_this w
  ∧ _nextGeneratorID (w_this (call_values None w)) = 0%nat
  ∧ _indices (w_this (call_values None w)) = ∅.
Proof.
  intros w.
  assert (reachable w) as Hw by (apply reachable_after; vm_compute; eauto).
  destruct (accessor_registers_nothing None w Hw) as (Hstep & Hthis & _).
  split; [exact Hstep|]. split; [exact Hthis|]. split; reflexivity.
Defined.

(** ** Concrete states for the further properties *)

(** Two listeners at cursors 1 and 2 over three values. *)
Lemma trim_keeps_unread_values_witness :
  let b := {| _buffer := [10; 20; 30];
              _nextGeneratorID := 2%nat;
              _indices := <[0%nat := 1]> (<[1%nat := 2]> ∅);
              _nextValue := None;
              _resolveNextValue := None |} in
  (∀ i, is_Some (_indices (_trim b) !! i) ↔ is_Some (_indices b !! i))
  ∧ (∀ id c, _indices b !! id = Some c →
       ∃ c', _indices (_trim b) !! id = Some c'
             ∧ c' ≤ c
             ∧ drop (Z.to_nat c') (_buffer (_trim b))
               = drop (Z.to_nat c) (_buffer b)).
Proof. intros b. apply (trim_keeps_unread_values b). Defined.

Lemma cleanup_unregistered_witness :
  let b := {| _buffer := [10; 20; 30];
              _nextGeneratorID := 2%nat;
              _indices := <[0%nat := 1]> (<[1%nat := 2]> ∅);
              _nextValue := None;
              _resolveNextValue := None |} in
  _cleanup 7%nat b = _trim b.
Proof. intros b. apply (cleanup_unregistered 7%nat b). reflexivity. Defined.

Lemma cleanup_keeps_other_listeners_witness :
  let b := {| _buffer := [10; 20; 30];
              _nextGeneratorID := 2%nat;
              _indices := <[0%nat := 1]> (<[1%nat := 2]> ∅);
              _nextValue := None;
              _resolveNextValue := None |} in
  ∃ c', _indices (_cleanup 0%nat b) !! 1%nat = Some c'
        ∧ drop (Z.to_nat c') (_buffer (_cleanup 0%nat b))
          = drop (Z.to_nat 2) (_buffer b).
Proof.
  intros b. apply (cleanup_keeps_other_listeners 0%nat 1%nat 2 b).
  - lia.
  - reflexivity.
Defined.

Lemma trim_leaves_nothing_behind_witness :
  let b := {| _buffer := [10; 20; 30];
              _nextGeneratorID := 2%nat;
              _indices := <[0%nat := 1]> (<[1%nat := 2]> ∅);
              _nextValue := None;
              _resolveNextValue := None |} in
  (_indices (_trim b) = ∅ ∧ _buffer (_trim b) = [])
  ∨ (∃ i, _indices (_trim b) !! i = Some 0
          ∧ ∀ j n, _indices (_trim b) !! j = Some n → 0 ≤ n).
Proof.
  intros b. apply (trim_leaves_nothing_behind b).
  intros i n. simpl.
  intros [[_ <-]|[_ [[_ <-]|[_ Hi]]%lookup_insert_Some]]%lookup_insert_Some;
    [lia|lia|by rewrite lookup_empty in Hi].
Defined.

(** A listener that has received one value. *)
Lemma pulls_are_defined_witness :
  let w := after [Values None; Next 0%nat; Produce 1; Settle 0%nat] in
  let G := {| g_signal := None; g_phase := SuspendedYield 0;
              g_joined := Some 0%nat; g_log := [Some 1] |} in
  ((∀ id p, g_phase G ≠ Awaiting id p) → is_Some (step (Next 0%nat) w))
  ∧ (∀ id p, g_phase G = Awaiting id p →
       promise_resolved w p || signal_aborted w G = true →
       is_Some (step (Settle 0%nat) w)).
Proof.
  intros w G. apply (pulls_are_defined w 0%nat G).
  - apply reachable_after. vm_compute. eauto.
  - reflexivity.
Defined.

Lemma yields_are_produced_values_witness :
  let w := after [Produce 1; Values None; Next 0%nat; Produce 2; Produce 3;
                  Settle 0%nat] in
  let G := {| g_signal := None; g_phase := SuspendedYield 0;
              g_joined := Some 1%nat; g_log := [Some 2] |} in
  (∀ x, x ∈ g_log G → is_Some x)
  ∧ ∃ before vs after,
      w_produced w = before ++ vs ++ after ∧ g_log G = Some <$> vs.
Proof.
  intros w G. apply (yields_are_produced_values w 0%nat G).
  - apply reachable_after. vm_compute. eauto.
  - reflexivity.
Defined.

(** A listener with one value received and one more in the buffer. *)
Lemma pull_reads_next_value_witness :
  let w := after [Values None; Next 0%nat; Produce 1; Produce 2;
                  Settle 0%nat] in
  let G := {| g_signal := None; g_phase := SuspendedYield 0;
              g_joined := Some 0%nat; g_log := [Some 1] |} in
  ∃ v N,
    array_get (_buffer (w_this w)) 0 = Some v
    ∧ step (Next 0%nat) w = Some (deliver 0%nat G 0%nat 0 w)
    ∧ w_generators (deliver 0%nat G 0%nat 0 w) !! 0%nat =
      Some {| g_signal := g_signal G; g_phase := SuspendedYield 0;
              g_joined := g_joined G; g_log := g_log G ++ [Some v] |}
    ∧ g_joined G = Some N
    ∧ w_produced w !! (N + length (g_log G))%nat = Some v.
Proof.
  intros w G. apply (pull_reads_next_value w 0%nat 0%nat 0 G).
  - apply reachable_after. vm_compute. eauto.
  - reflexivity.
  - reflexivity.
  - reflexivity.
  - reflexivity.
  - reflexivity.
Defined.

(** A listener that waits before anything is produced. *)
Lemma waiting_listener_resolved_iff_unread_witness :
  let w := after [Values None; Next 0%nat] in
  ∃ c, _indices (w_this w) !! 0%nat = Some c
       ∧ 0 ≤ c ≤ len (_buffer (w_this w))
       ∧ (promise_resolved w 0 = true ↔ c < len (_buffer (w_this w))).
Proof.
  intros w.
  apply (waiting_listener_resolved_iff_unread w 0%nat 0%nat 0%nat
           {| g_signal := None; g_phase := Awaiting 0 0;
              g_joined := Some 0%nat; g_log := [] |}).
  - apply reachable_after. vm_compute. eauto.
  - reflexivity.
  - reflexivity.
Defined.

Lemma single_pending_promise_witness :
  let w := after [Values None; Values None; Next 0%nat; Next 1%nat] in
  _resolveNextValue (w_this w) = _nextValue (w_this w)
  ∧ (∀ p, _nextValue (w_this w) = Some p →
          w_promises w !! p = Some false)
  ∧ (∀ g G id p, w_generators w !! g = Some G →
       g_phase G = Awaiting id p → promise_resolved w p = false →
       _nextValue (w_this w) = Some p).
Proof.
  intros w. apply (single_pending_promise w).
  apply reachable_after. vm_compute. eauto.
Defined.

(** Two listeners wait when the source yields 7. *)
Lemma produce_wakes_every_waiter_witness :
  let w := after [Values None; Values None; Next 0%nat; Next 1%nat] in
  ∃ w', step (Produce 7) w = Some w'
        ∧ _buffer (w_this w') = _buffer (w_this w) ++ [7]
        ∧ _indices (w_this w') = _indices (w_this w)
        ∧ _nextValue (w_this w') = None
        ∧ _resolveNextValue (w_this w') = None
        ∧ (∀ g G id p, w_generators w' !! g = Some G →
             g_phase G = Awaiting id p →
             promise_resolved w' p = true
             ∧ is_Some (step (Settle g) w')).
Proof.
  intros w. apply (produce_wakes_every_waiter 7 w).
  - apply reachable_after. vm_compute. eauto.
  - reflexivity.
Defined.

(** The consumer has left after its first value. *)
Lemma registry_entries_are_live_witness :
  let w := after [Values None; Next 0%nat; Produce 1; Settle 0%nat;
                  Return 0%nat] in
  (∀ id, is_Some (_indices (w_this w) !! id) ↔
         ∃ g G, w_generators w !! g = Some G
                ∧ phase_id (g_phase G) = Some id)
  ∧ (∀ id, is_Some (_indices (w_this w) !! id) →
           (id < _nextGeneratorID (w_this w))%nat)
  ∧ (∀ g1 g2 G1 G2 id,
       w_generators w !! g1 = Some G1 → w_generators w !! g2 = Some G2 →
       phase_id (g_phase G1) = Some id → phase_id (g_phase G2) = Some id →
       g1 = g2)
  ∧ ((∀ g G, w_generators w !! g = Some G → phase_id (g_phase G) = None) →
     _indices (w_this w) = ∅).
Proof.
  intros w. apply (registry_entries_are_live w).
  apply reachable_after. vm_compute. eauto.
Defined.

Lemma buffer_is_tail_of_production_witness :
  let w := after [Produce 1; Values None; Next 0%nat; Produce 2; Produce 3;
                  Settle 0%nat] in
  _buffer (w_this w) `suffix_of` w_produced w.
Proof.
  intros w. apply (buffer_is_tail_of_production w).
  apply reachable_after. vm_compute. eauto.
Defined.

(** A broadcaster made without a source, and a listener on it. *)
Lemma no_source_no_values_witness :
  let es : list (event (T:=Z)) := [Values None; Next 0%nat] in
  let w := default (new_world false) (run es (new_world false)) in
  w_produced w = []
  ∧ _buffer (w_this w) = []
  ∧ (∀ g G, w_generators w !! g = Some G → g_log G = []).
Proof.
  intros es w. apply (no_source_no_values es w). vm_compute. reflexivity.
Defined.

(** The source ends with one unread value in the buffer. *)
Lemma after_upstream_ends_nothing_is_appended_witness :
  let w := after [Values None; Next 0%nat; Produce 1; Produce 2; Finish] in
  let w' := after [Values None; Next 0%nat; Produce 1; Produce 2; Finish;
                   Settle 0%nat; Next 0%nat] in
  w_pushing w' = false
  ∧ w_produced w' = w_produced w
  ∧ ∃ n, _buffer (w_this w') = drop n (_buffer (w_this w)).
Proof.
  intros w w'.
  apply (after_upstream_ends_nothing_is_appended
           [Settle 0%nat; Next 0%nat] w w').
  - reflexivity.
  - vm_compute. reflexivity.
Defined.

(** The second listener catches up, a third one comes and goes, and two
    more values are produced while the first one rests with one unread
    value. *)
Lemma others_do_not_disturb_witness :
  let w := after [Values None; Values None; Next 0%nat; Next 1%nat;
                  Produce 1; Produce 2; Settle 0%nat] in
  let w' := after [Values None; Values None; Next 0%nat; Next 1%nat;
                   Produce 1; Produce 2; Settle 0%nat;
                   Settle 1%nat; Next 1%nat; Produce 3; Values None;
                   Next 2%nat; Return 1%nat; Produce 4] in
  let G := {| g_signal := None; g_phase := SuspendedYield 0;
              g_joined := Some 0%nat; g_log := [Some 1] |} in
  w_generators w' !! 0%nat = Some G
  ∧ ∃ later c',
      w_produced w' = w_produced w ++ later
      ∧ _indices (w_this w') !! 0%nat = Some c'
      ∧ 0 ≤ c' ≤ len (_buffer (w_this w'))
      ∧ drop (Z.to_nat c') (_buffer (w_this w'))
        = drop (Z.to_nat 1) (_buffer (w_this w)) ++ later.
Proof.
  intros w w' G.
  apply (others_do_not_disturb
           [Settle 1%nat; Next 1%nat; Produce 3; Values None;
            Next 2%nat; Return 1%nat; Produce 4] w w' 0%nat 0%nat 1 G).
  - apply reachable_after. vm_compute. eauto.
  - vm_compute. reflexivity.
  - reflexivity.
  - reflexivity.
  - reflexivity.
  - repeat constructor; discriminate.
Defined.

Lemma without_signal_only_return_completes_witness :
  let w := after [Values None; Next 0%nat; Produce 1; Settle 0%nat] in
  let w' := after [Values None; Next 0%nat; Produce 1; Settle 0%nat;
                   Return 0%nat] in
  w_generators w' !! 0%nat
  = Some {| g_signal := None; g_phase := Completed;
            g_joined := Some 0%nat; g_log := [Some 1] |}
  ∧ Return 0%nat = (Return 0%nat : event (T:=Z)).
Proof.
  intros w w'. split; [reflexivity|].
  apply (without_signal_only_return_completes (Return 0%nat) w w' 0%nat
           {| g_signal := None; g_phase := SuspendedYield 0;
              g_joined := Some 0%nat; g_log := [Some 1] |}
           {| g_signal := None; g_phase := Completed;
              g_joined := Some 0%nat; g_log := [Some 1] |}).
  - reflexivity.
  - vm_compute. reflexivity.
  - reflexivity.
  - reflexivity.
  - discriminate.
  - reflexivity.
Defined.
